(** * Deployment orchestrator, progress channel and command wrapper

    A shallow embedding of [deployment-logic.js] ([runCommand],
    [startDeployment]) and of the progress channel and the two routes of
    [server.js] ([sendStatusUpdate], [POST /deploy], [GET /status/:id]).

    Conventions of the embedding.
    - A JavaScript string is a [string]: a sequence of code units.  The
      model carries the code units 0..255 (the Latin-1 block), on which
      [trim], [toLowerCase] and the regular expression of the name
      derivation are defined exactly as ECMAScript defines them.
    - JavaScript numbers are integers ([Z]); [Math.random()] is the exact
      dyadic fraction [seed mod 2^53 / 2^53] for a seed the environment picks.
    - Everything the program reads from outside (environment variables, HTTP
      answers, what a child process prints and how it ends, file system
      faults) is a field of a [World] record, so that a run is a function.
    - A promise that never settles makes the awaiting function stall: the
      completion [Stalled].
    - [console.log] and friends are left out, except for the warning of the
      finalization step. *)

From Stdlib Require Import Ascii.
From stdpp Require Import gmap strings list pretty.

Open Scope Z_scope.

(** ** JavaScript strings *)

Module Js.

Definition code (c : ascii) : N := Ascii.N_of_ascii c.

Definition between (lo hi : N) (c : ascii) : bool :=
  ((lo <=? code c) && (code c <=? hi))%N.

(** WhiteSpace and LineTerminator code units below 256: TAB, LF, VT, FF, CR,
    SP and NBSP. *)
Definition is_space (c : ascii) : bool :=
  between 9 13 c || (code c =? 32)%N || (code c =? 160)%N.

Fixpoint trimStart (s : string) : string :=
  match s with
  | String c s' => if is_space c then trimStart s' else s
  | EmptyString => EmptyString
  end.

Fixpoint trimEnd (s : string) : string :=
  match s with
  | String c s' =>
      match trimEnd s' with
      | EmptyString => if is_space c then EmptyString else String c EmptyString
      | t => String c t
      end
  | EmptyString => EmptyString
  end.

(** [String.prototype.trim] *)
Definition trim (s : string) : string := trimEnd (trimStart s).

Fixpoint map_units (f : ascii -> ascii) (s : string) : string :=
  match s with
  | String c s' => String (f c) (map_units f s')
  | EmptyString => EmptyString
  end.

(** The code units with a lower-case mapping: A-Z, and the Latin-1 capitals
    U+00C0..U+00DE without the multiplication sign U+00D7. *)
Definition is_upper (c : ascii) : bool :=
  between 65 90 c || (between 192 222 c && negb (code c =? 215)%N).

Definition lower_unit (c : ascii) : ascii :=
  if is_upper c then Ascii.ascii_of_N (code c + 32) else c.

(** [String.prototype.toLowerCase] *)
Definition toLowerCase (s : string) : string := map_units lower_unit s.

(** The character class [a-z0-9-]. *)
Definition is_name_unit (c : ascii) : bool :=
  between 97 122 c || between 48 57 c || (code c =? 45)%N.

(** [.replace(/[^a-z0-9-]/g, "-")] *)
Definition replace_non_name (s : string) : string :=
  map_units (fun c => if is_name_unit c then c else "-"%char) s.

Definition is_digit (c : ascii) : bool := between 48 57 c.

Fixpoint all_units (p : ascii -> bool) (s : string) : bool :=
  match s with
  | String c s' => p c && all_units p s'
  | EmptyString => true
  end.



(** [Array.prototype.join] *)
Fixpoint join (sep : string) (l : list string) : string :=
  match l with
  | [] => ""
  | [x] => x
  | x :: l' => x +:+ sep +:+ join sep l'
  end.

(** The truth value of a string: [""] is the only falsy one. *)
Definition nonempty (s : string) : bool :=
  match s with EmptyString => false | _ => true end.

(** [a || b] on strings. *)
Definition or_else (a b : string) : string := if nonempty a then a else b.

(** [Number.prototype.toString] on an integer. *)
Definition num_toString (n : Z) : string := pretty n.

End Js.

(** ** Name derivation ([startDeployment], lines 79-91) *)

(** [Math.floor(1000 + Math.random() * 9000)] with
    [Math.random() = seed mod 2^53 / 2^53]. *)
Definition randomSuffixNumber (seed : Z) : Z :=
  1000 + (9000 * (seed mod 2 ^ 53)) / 2 ^ 53.

Definition randomSuffix (seed : Z) : string :=
  Js.num_toString (randomSuffixNumber seed).

(** [.replace(/[^a-z0-9-]/g, "-").substring(0, 40)] *)
Definition sanitize (lowered : string) : string :=
  String.substring 0 40 (Js.replace_non_name lowered).

Definition sanitizedOrgName (orgName : string) : string :=
  sanitize (Js.toLowerCase orgName).

Definition deriveAppName (orgName : string) (seed : Z) : string :=
  sanitizedOrgName orgName +:+ "-" +:+ randomSuffix seed.

(** The pattern [acme-inc-\d{4}] matches at the start of [s]. *)
Definition starts_acme_inc_d4 (s : string) : bool :=
  match s with
  | String "a" (String "c" (String "m" (String "e" (String "-"
      (String "i" (String "n" (String "c" (String "-"
        (String d1 (String d2 (String d3 (String d4 _)))))))))))) =>
      Js.is_digit d1 && Js.is_digit d2 && Js.is_digit d3 && Js.is_digit d4
  | _ => false
  end.

(** [/acme-inc-\d{4}/.test(s)]: the pattern matches somewhere in [s]. *)
Fixpoint test_acme_inc_d4 (s : string) : bool :=
  starts_acme_inc_d4 s ||
  match s with
  | String _ s' => test_acme_inc_d4 s'
  | EmptyString => false
  end.


(** What is checked of every number a suffix can be: four decimal digits,
    and no match of the pattern once appended to [acme-inc--]. *)
Definition suffix_ok (n : Z) : bool :=
  (String.length (Js.num_toString n) =? 4)%nat
  && Js.all_units Js.is_digit (Js.num_toString n)
  && negb (test_acme_inc_d4 ("acme-inc--" +:+ Js.num_toString n)).

(** ** JavaScript values

    What [JSON.parse] produces (request bodies, HTTP answers), with
    [undefined] for an absent property.  [VObj] lists the own properties of
    an object, each key once. *)

#[local] Set Warnings "-register-all".

Inductive value :=
  | VUndefined
  | VNull
  | VBool (b : bool)
  | VNum (n : Z)
  | VStr (s : string)
  | VArr (l : list value)
  | VObj (l : list (string * value)).

Module Value.

(** ToBoolean: what [!v] and [if (v)] look at. *)
Definition truthy (v : value) : bool :=
  match v with
  | VUndefined | VNull => false
  | VBool b => b
  | VNum n => negb (n =? 0)%Z
  | VStr s => Js.nonempty s
  | VArr _ | VObj _ => true
  end.

(** ToString: what a template literal does to an interpolated value. *)
Fixpoint to_string (v : value) : string :=
  match v with
  | VUndefined => "undefined"
  | VNull => "null"
  | VBool true => "true"
  | VBool false => "false"
  | VNum n => Js.num_toString n
  | VStr s => s
  | VArr l =>
      Js.join ","
        (List.map (fun x => match x with
                            | VUndefined | VNull => ""
                            | _ => to_string x
                            end) l)
  | VObj _ => "[object Object]"
  end.

Fixpoint own (k : string) (l : list (string * value)) : value :=
  match l with
  | [] => VUndefined
  | (k', v) :: l' => if String.eqb k k' then v else own k l'
  end.

(** [v.k] for a [v] that is neither [null] nor [undefined] and a name [k]
    that no prototype defines ([id], [token]). *)
Definition field (k : string) (v : value) : value :=
  match v with
  | VObj l => own k l
  | _ => VUndefined
  end.

(** [v.length] for a [v] that is neither [null] nor [undefined]. *)
Definition length_of (v : value) : value :=
  match v with
  | VArr l => VNum (Z.of_nat (length l))
  | VStr s => VNum (Z.of_nat (String.length s))
  | VObj l => own "length" l
  | _ => VUndefined
  end.

(** [v[0]] for a [v] that is neither [null] nor [undefined]. *)
Definition first (v : value) : value :=
  match v with
  | VArr (x :: _) => x
  | VStr (String c _) => VStr (String c EmptyString)
  | VObj l => own "0" l
  | _ => VUndefined
  end.

(** [v === 0] *)
Definition is_zero (v : value) : bool :=
  match v with VNum 0 => true | _ => false end.

End Value.

(** ** Data model *)

(** The object [sendStatusUpdate] serialises; [data] is [null] or
    [{ appUrl }]. *)
Record ProgressEvent := {
  message : string;
  isError : bool;
  isComplete : bool;
  data : option string }.

(** A call [sendStatusUpdate(message)] and a call
    [sendStatusUpdate(message, true)], the remaining parameters at their
    defaults. *)
Definition info (m : string) : ProgressEvent :=
  {| message := m; isError := false; isComplete := false; data := None |}.

Definition failure (m : string) : ProgressEvent :=
  {| message := m; isError := true; isComplete := false; data := None |}.

Record FormData := { orgName : value; geminiKey : value }.

Record CommandResult := { stdout : string; stderr : string; exitCode : Z }.

(** ** The outside world *)

Record Response := {
  status : Z;
  text : string;
  (** [await response.json()]: the message of the error it throws, or the
      parsed body. *)
  json : string + value }.

(** [response.ok] *)
Definition ok (r : Response) : bool := (200 <=? status r) && (status r <=? 299).

Inductive FetchOutcome :=
  | NetworkError (msg : string)
  | Responds (r : Response)
  | NeverAnswers.

(** What the handlers registered on a child process get to see, in order:
    [data] on stdout, [data] on stderr, [error], and [close] with the exit
    code ([None] is the [null] of a process ended by a signal). *)
Inductive ChildEvent :=
  | StdoutData (chunk : string)
  | StderrData (chunk : string)
  | SpawnError (msg : string)
  | Close (code : option Z).

Record World := {
  (** [process.env] *)
  env : gmap string string;
  (** the state of [Math.random] *)
  random_seed : Z;
  (** [fetch(url, { method, ... })] by method and URL *)
  fetch : string -> string -> FetchOutcome;
  (** [spawn(command, args)]: the events of the child, up to the turn of the
      event loop in which the promise of [runCommand] settles *)
  spawn : string -> list string -> list ChildEvent;
  (** [os.tmpdir()] *)
  tmpdir : string;
  (** [fs.writeFile] fails with this message; the flag tells whether the
      file was created all the same *)
  write_fault : option (string * bool);
  (** [fs.unlink] of an existing file fails with this message and leaves the
      file in place *)
  unlink_fault : option string }.

Definition dquote : string := String "034"%char EmptyString.
Definition nl : string := String "010"%char EmptyString.

(** ** The command execution wrapper ([runCommand], lines 7-69) *)

Inductive Settlement :=
  | Resolved (r : CommandResult)
  | Rejected (msg : string).

(** The variables the handlers of one [runCommand] call share: the two
    accumulators, the promise, and the calls of the progress callback. *)
Record Child := {
  stdoutData : string;
  stderrData : string;
  settled : option Settlement;
  progress : list ProgressEvent }.

Module Child.

Definition start : Child :=
  {| stdoutData := ""; stderrData := ""; settled := None; progress := [] |}.

Definition emit (e : ProgressEvent) (c : Child) : Child :=
  {| stdoutData := stdoutData c; stderrData := stderrData c;
     settled := settled c; progress := progress c ++ [e] |}.

(** [resolve] and [reject] only act on a pending promise. *)
Definition settle (s : Settlement) (c : Child) : Child :=
  {| stdoutData := stdoutData c; stderrData := stderrData c;
     settled := match settled c with Some s' => Some s' | None => Some s end;
     progress := progress c |}.

Definition add_stdout (line : string) (c : Child) : Child :=
  {| stdoutData := stdoutData c +:+ line +:+ nl; stderrData := stderrData c;
     settled := settled c; progress := progress c |}.

Definition add_stderr (line : string) (c : Child) : Child :=
  {| stdoutData := stdoutData c; stderrData := stderrData c +:+ line +:+ nl;
     settled := settled c; progress := progress c |}.

End Child.

Definition code_toString (code : option Z) : string :=
  match code with Some n => Js.num_toString n | None => "null" end.

Definition commandString (command : string) (args : list string) : string :=
  command +:+ " " +:+ Js.join " " args.

Definition exit_errorMessage (cs : string) (code : option Z) (err : string) : string :=
  "Command " +:+ dquote +:+ cs +:+ dquote +:+ " failed with exit code "
    +:+ code_toString code +:+ ". Stderr: " +:+ Js.or_else err "None".

Definition launch_errorMessage (cs msg : string) : string :=
  "Failed to start command " +:+ dquote +:+ cs +:+ dquote +:+ ": " +:+ msg.

(** One handler call. *)
Definition handle (cs : string) (ev : ChildEvent) (c : Child) : Child :=
  match ev with
  | StdoutData chunk =>
      let line := Js.trim chunk in
      if Js.nonempty line
      then Child.emit (info ("[stdout] " +:+ line)) (Child.add_stdout line c)
      else c
  | StderrData chunk =>
      let line := Js.trim chunk in
      if Js.nonempty line
      then Child.emit (info ("[stderr] " +:+ line)) (Child.add_stderr line c)
      else c
  | SpawnError msg =>
      Child.settle (Rejected (launch_errorMessage cs msg))
        (Child.emit (failure ("Spawn Error: " +:+ msg)) c)
  | Close code =>
      match code with
      | Some 0 =>
          Child.settle
            (Resolved {| stdout := stdoutData c; stderr := stderrData c;
                         exitCode := 0 |})
            (Child.emit
               (info ("Command " +:+ dquote +:+ cs +:+ dquote
                        +:+ " completed successfully.")) c)
      | _ =>
          let errorMessage := exit_errorMessage cs code (stderrData c) in
          Child.settle (Rejected errorMessage)
            (Child.emit (failure errorMessage) c)
      end
  end.

Definition handle_all (cs : string) (evs : list ChildEvent) (c : Child) : Child :=
  foldl (fun c ev => handle cs ev c) c evs.


(** The body of the promise: the first progress call, then the handlers on
    the events of the child. *)
Definition run_child (command : string) (args : list string)
    (evs : list ChildEvent) : Child :=
  let cs := commandString command args in
  handle_all cs evs
    (Child.emit (info ("Executing: " +:+ cs +:+ "...")) Child.start).

(** ** Orchestration runs

    A run threads one state: what it has published through its progress
    callback, the command lines it has spawned, the file system, the
    warnings of its finalization step, and the two variables
    [startDeployment] keeps for cleanup. *)

Record RunState := {
  events : list ProgressEvent;
  spawned : list (list string);
  files : gmap string string;
  warnings : list string;
  uniqueAppName : string;
  tempFlyTomlPath : string }.

Inductive Completion (A : Type) :=
  | Normal (a : A)
  | Throw (msg : string)
  | Stalled.

Arguments Normal {A} a.
Arguments Throw {A} msg.
Arguments Stalled {A}.

Definition M (A : Type) : Type := RunState -> Completion A * RunState.

#[global] Instance M_ret : MRet M := fun A a st => (Normal a, st).

#[global] Instance M_bind : MBind M := fun A B k m st =>
  match m st with
  | (Normal a, st') => k a st'
  | (Throw msg, st') => (Throw msg, st')
  | (Stalled, st') => (Stalled, st')
  end.

Definition throw {A} (msg : string) : M A := fun st => (Throw msg, st).

(** [try { m } catch (error) { h error.message }] *)
Definition try_catch {A} (m : M A) (h : string -> M A) : M A := fun st =>
  match m st with
  | (Throw msg, st') => h msg st'
  | r => r
  end.

(** [try { m } finally { f }], for an [f] that does not throw. *)
Definition finally {A} (m : M A) (f : M unit) : M A := fun st =>
  match m st with
  | (Stalled, st') => (Stalled, st')
  | (c, st') =>
      match f st' with
      | (Normal _, st'') => (c, st'')
      | (Throw msg, st'') => (Throw msg, st'')
      | (Stalled, st'') => (Stalled, st'')
      end
  end.

Module Run.

Definition publish (e : ProgressEvent) (st : RunState) : RunState :=
  {| events := events st ++ [e]; spawned := spawned st; files := files st;
     warnings := warnings st; uniqueAppName := uniqueAppName st;
     tempFlyTomlPath := tempFlyTomlPath st |}.

Definition publish_all (es : list ProgressEvent) (st : RunState) : RunState :=
  {| events := events st ++ es; spawned := spawned st; files := files st;
     warnings := warnings st; uniqueAppName := uniqueAppName st;
     tempFlyTomlPath := tempFlyTomlPath st |}.

Definition record_spawn (argv : list string) (st : RunState) : RunState :=
  {| events := events st; spawned := spawned st ++ [argv]; files := files st;
     warnings := warnings st; uniqueAppName := uniqueAppName st;
     tempFlyTomlPath := tempFlyTomlPath st |}.

Definition with_files (fs : gmap string string) (st : RunState) : RunState :=
  {| events := events st; spawned := spawned st; files := fs;
     warnings := warnings st; uniqueAppName := uniqueAppName st;
     tempFlyTomlPath := tempFlyTomlPath st |}.

Definition warn (line : string) (st : RunState) : RunState :=
  {| events := events st; spawned := spawned st; files := files st;
     warnings := warnings st ++ [line]; uniqueAppName := uniqueAppName st;
     tempFlyTomlPath := tempFlyTomlPath st |}.

Definition with_name (name : string) (st : RunState) : RunState :=
  {| events := events st; spawned := spawned st; files := files st;
     warnings := warnings st; uniqueAppName := name;
     tempFlyTomlPath := tempFlyTomlPath st |}.

Definition with_path (path : string) (st : RunState) : RunState :=
  {| events := events st; spawned := spawned st; files := files st;
     warnings := warnings st; uniqueAppName := uniqueAppName st;
     tempFlyTomlPath := path |}.

(** The state a run starts from on the file system [fs]. *)
Definition initial (fs : gmap string string) : RunState :=
  {| events := []; spawned := []; files := fs; warnings := [];
     uniqueAppName := ""; tempFlyTomlPath := "" |}.

End Run.

(** The progress callback the run was given. *)
Definition sendStatusUpdate (e : ProgressEvent) : M unit :=
  fun st => (Normal tt, Run.publish e st).

Definition console_error (line : string) : M unit :=
  fun st => (Normal tt, Run.warn line st).

Definition set_uniqueAppName (name : string) : M unit :=
  fun st => (Normal tt, Run.with_name name st).

Definition set_tempFlyTomlPath (path : string) : M unit :=
  fun st => (Normal tt, Run.with_path path st).

Definition get_uniqueAppName : M string :=
  fun st => (Normal (uniqueAppName st), st).

Definition get_tempFlyTomlPath : M string :=
  fun st => (Normal (tempFlyTomlPath st), st).

(** [encodeURIComponent]: unreserved code units stay, the others are
    percent-encoded in UTF-8. *)
Definition hex_digit (n : N) : ascii :=
  Ascii.ascii_of_N (if (n <? 10)%N then 48 + n else 55 + n).

Definition percent (n : N) : string :=
  String "%" (String (hex_digit (n / 16)) (String (hex_digit (n mod 16)) "")).

Definition is_unreserved (c : ascii) : bool :=
  Js.between 65 90 c || Js.between 97 122 c || Js.between 48 57 c ||
  match c with
  | "-" | "_" | "." | "!" | "~" | "*" | "'" | "(" | ")" => true
  | _ => false
  end%char.

Fixpoint encodeURIComponent (s : string) : string :=
  match s with
  | EmptyString => EmptyString
  | String c s' =>
      (if is_unreserved c then String c EmptyString
       else if (Js.code c <? 128)%N then percent (Js.code c)
       else percent (192 + Js.code c / 64) +:+ percent (128 + Js.code c mod 64))
      +:+ encodeURIComponent s'
  end.

Section Orchestrator.

Context (w : World).

(** [process.env.NAME || fallback] *)
Definition env_or (name fallback : string) : string :=
  Js.or_else (default "" (env w !! name)) fallback.

(** [await fetch(url, { method })] *)
Definition await_fetch (method url : string) : M Response := fun st =>
  match fetch w method url with
  | NetworkError msg => (Throw msg, st)
  | Responds r => (Normal r, st)
  | NeverAnswers => (Stalled, st)
  end.

(** [await response.json()] *)
Definition await_json (r : Response) : M value :=
  match json r with
  | inl msg => throw msg
  | inr v => mret v
  end.

(** [await runCommand(command, args, deploymentId, sendStatusUpdate)]; the
    deployment identifier only labels console output. *)
Definition runCommand (command : string) (args : list string) : M CommandResult :=
  fun st =>
    let child := run_child command args (spawn w command args) in
    let st' := Run.publish_all (progress child)
                 (Run.record_spawn (command :: args) st) in
    match settled child with
    | Some (Resolved r) => (Normal r, st')
    | Some (Rejected msg) => (Throw msg, st')
    | None => (Stalled, st')
    end.

(** [await fs.writeFile(path, content)] *)
Definition writeFile (path content : string) : M unit := fun st =>
  match write_fault w with
  | None => (Normal tt, Run.with_files (<[path := content]> (files st)) st)
  | Some (msg, true) => (Throw msg, Run.with_files (<[path := ""]> (files st)) st)
  | Some (msg, false) => (Throw msg, st)
  end.

(** [await fs.unlink(path)] *)
Definition unlink (path : string) : M unit := fun st =>
  match files st !! path with
  | None =>
      (Throw ("ENOENT: no such file or directory, unlink '" +:+ path +:+ "'"), st)
  | Some _ =>
      match unlink_fault w with
      | None => (Normal tt, Run.with_files (delete path (files st)) st)
      | Some msg => (Throw msg, st)
      end
  end.

End Orchestrator.

(** ** The deployment logic ([startDeployment], lines 72-418) *)

Section StartDeployment.

Context (w : World).

Definition humanitecOrgId : string := "canyon-demo".

(** [orgName.toLowerCase()], with V8's message when the call throws. *)
Definition orgName_toLowerCase (v : value) : M string :=
  match v with
  | VStr s => mret (Js.toLowerCase s)
  | VUndefined =>
      throw "Cannot read properties of undefined (reading 'toLowerCase')"
  | VNull => throw "Cannot read properties of null (reading 'toLowerCase')"
  | _ => throw "orgName.toLowerCase is not a function"
  end.

(** Lines 79-91. *)
Definition generateName (formData : FormData) : M string :=
  sendStatusUpdate (info "Generating unique application name...");;
  let randomSuffix := randomSuffix (random_seed w) in
  lowered ← orgName_toLowerCase (orgName formData);
  let sanitizedOrgName := sanitize lowered in
  let name := sanitizedOrgName +:+ "-" +:+ randomSuffix in
  set_uniqueAppName name;;
  sendStatusUpdate (info ("Generated Fly app name: " +:+ name));;
  mret name.

(** [!users || users.length === 0 || !users[0].id], lines 158-161. *)
Definition users_lack_id (users : value) : M bool :=
  if negb (Value.truthy users) then mret true
  else if Value.is_zero (Value.length_of users) then mret true
  else
    match Value.first users with
    | VUndefined => throw "Cannot read properties of undefined (reading 'id')"
    | VNull => throw "Cannot read properties of null (reading 'id')"
    | u => mret (negb (Value.truthy (Value.field "id" u)))
    end.

(** Lines 115-193: create the service user, or find it when it exists. *)
Definition setupUser (serviceUserName : string) : M value :=
  try_catch
    (createUserResponse ← await_fetch w "POST"
       ("https://api.humanitec.io/orgs/" +:+ humanitecOrgId +:+ "/users");
     if negb (ok createUserResponse) then
       if status createUserResponse =? 409 then
         sendStatusUpdate
           (info ("Service user '" +:+ serviceUserName
                    +:+ "' already exists. Fetching ID..."));;
         getUsersResponse ← await_fetch w "GET"
           ("https://api.humanitec.io/orgs/" +:+ humanitecOrgId
              +:+ "/users?name=" +:+ encodeURIComponent serviceUserName);
         if negb (ok getUsersResponse) then
           throw ("Failed to find existing service user '" +:+ serviceUserName
                    +:+ "'. Status: "
                    +:+ Js.num_toString (status getUsersResponse))
         else
           users ← await_json getUsersResponse;
           lacking ← users_lack_id users;
           if lacking : bool then
             throw ("Failed to find ID for existing service user '"
                      +:+ serviceUserName +:+ "'.")
           else
             let newUserId := Value.field "id" (Value.first users) in
             sendStatusUpdate
               (info ("Found existing service user ID: "
                        +:+ Value.to_string newUserId));;
             mret newUserId
       else
         throw ("Failed to create Humanitec service user. Status: "
                  +:+ Js.num_toString (status createUserResponse)
                  +:+ ", Body: " +:+ text createUserResponse)
     else
       newUser ← await_json createUserResponse;
       if negb (Value.truthy newUser)
          || negb (Value.truthy (Value.field "id" newUser))
       then throw "Failed to parse service user ID from Humanitec response."
       else
         let newUserId := Value.field "id" newUser in
         sendStatusUpdate
           (info ("Successfully created Humanitec service user. ID: "
                    +:+ Value.to_string newUserId));;
         mret newUserId)
    (fun msg => throw ("Humanitec user setup failed: " +:+ msg)).

(** Lines 195-249: issue the static token. *)
Definition setupToken (newUserId : value) (tokenId : string) : M value :=
  try_catch
    (sendStatusUpdate
       (info ("Generating API token for user ID: "
                +:+ Value.to_string newUserId +:+ "..."));;
     createTokenResponse ← await_fetch w "POST"
       ("https://api.humanitec.io/users/" +:+ Value.to_string newUserId
          +:+ "/tokens");
     if negb (ok createTokenResponse) then
       if status createTokenResponse =? 409 then
         throw ("Token with ID '" +:+ tokenId +:+ "' already exists for user '"
                  +:+ Value.to_string newUserId
                  +:+ "'. Cannot retrieve existing static token. Please delete it manually in Humanitec if you want to proceed.")
       else
         throw ("Failed to generate Humanitec API token. Status: "
                  +:+ Js.num_toString (status createTokenResponse)
                  +:+ ", Body: " +:+ text createTokenResponse)
     else
       tokenData ← await_json createTokenResponse;
       if negb (Value.truthy tokenData)
          || negb (Value.truthy (Value.field "token" tokenData))
       then throw "Failed to parse generated token from Humanitec response."
       else
         sendStatusUpdate (info "Successfully generated Humanitec API token.");;
         mret (Value.field "token" tokenData))
    (fun msg => throw ("Humanitec token setup failed: " +:+ msg)).

(** Lines 93-251. *)
Definition setupHumanitec (name : string) : M value :=
  sendStatusUpdate (info "Setting up Humanitec service user and token...");;
  (if Js.nonempty (default "" (env w !! "HUMANITEC_SERVICE_USER_API_TOKEN"))
   then mret tt
   else throw "Missing HUMANITEC_SERVICE_USER_API_TOKEN in environment variables.");;
  let serviceUserName := "canyon-chat-fly-" +:+ name in
  let tokenId := "canyon-chat-fly-token-" +:+ name in
  sendStatusUpdate
    (info ("Creating/finding Humanitec service user: " +:+ serviceUserName
             +:+ "..."));;
  newUserId ← setupUser serviceUserName;
  newUserToken ← setupToken newUserId tokenId;
  sendStatusUpdate (info "Humanitec setup complete.");;
  mret newUserToken.

(** Lines 272-282, in the order [Object.entries] lists them. *)
Definition secrets (geminiKey newUserToken : value) : list (string * value) :=
  [ ("GOOGLE_API_KEY", geminiKey);
    ("HUMANITEC_TOKEN", newUserToken);
    ("DEFAULT_MODEL", VStr "gemini-2.5-pro-preview-03-25");
    ("ENABLE_MCP", VStr "true");
    ("MINIO_ACCESS_KEY_ID", VStr "KNI6gzCN3ueRujNrzQj5");
    ("MINIO_BUCKET", VStr "canyon-render-bucket");
    ("MINIO_ENDPOINT", VStr "https://bucket-production-670c.up.railway.app:443");
    ("MINIO_SECRET_ACCESS_KEY", VStr "MGtkqapxCcbYS532RQVDUA9rdhPU6Ie7NT0LKgdj");
    ("MINIO_USE_SSL", VStr "true") ].

(** Lines 284-300. *)
Fixpoint setSecrets (name : string) (entries : list (string * value)) : M unit :=
  match entries with
  | [] => mret tt
  | (key, v) :: rest =>
      (if negb (Value.truthy v) then
         sendStatusUpdate
           (info ("Skipping secret " +:+ key +:+ " as value is empty."))
       else
         sendStatusUpdate (info ("Setting secret " +:+ key +:+ "..."));;
         runCommand w "flyctl"
           ["secrets"; "set"; "-a"; name; key +:+ "=" +:+ Value.to_string v];;
         sendStatusUpdate (info ("Secret " +:+ key +:+ " set.")));;
      setSecrets name rest
  end.

(** Lines 309-323. *)
Definition flyTomlContent (name flyRegion imageName : string) : string :=
  nl +:+ "app = " +:+ dquote +:+ name +:+ dquote +:+ nl
  +:+ "primary_region = " +:+ dquote +:+ flyRegion +:+ dquote +:+ nl
  +:+ nl
  +:+ "[build]" +:+ nl
  +:+ "  image = " +:+ dquote +:+ imageName +:+ dquote
  +:+ " # Specify the image to deploy" +:+ nl
  +:+ nl
  +:+ "[http_service]" +:+ nl
  +:+ "  internal_port = 3000 # Port the application inside the container listens on (Reverted back to 3000 based on startup logs)" +:+ nl
  +:+ "  force_https = true" +:+ nl
  +:+ "  auto_stop_machines = true # Keep machines running? Set to false if needed" +:+ nl
  +:+ "  auto_start_machines = true" +:+ nl
  +:+ "  min_machines_running = 0 # Scale to zero when idle" +:+ nl
  +:+ nl.

(** [path.join(os.tmpdir(), file)] for a normalised temporary directory. *)
Definition tmp_join (file : string) : string := tmpdir w +:+ "/" +:+ file.

Definition appUrl_of (name : string) : string :=
  "https://" +:+ name +:+ ".canyon-beta.com".

(** The final call of the [try] block, lines 362-367. *)
Definition success_event (name : string) : ProgressEvent :=
  {| message := "Deployment successful! App should be available shortly at: "
                  +:+ appUrl_of name;
     isError := false; isComplete := true; data := Some (appUrl_of name) |}.

(** Lines 253-357: everything between the Humanitec setup and the final
    call. *)
Definition deployToFly (formData : FormData) (deploymentId name : string)
    (newUserToken : value) : M unit :=
  let flyRegion := env_or w "FLY_REGION" "ams" in
  let imageName :=
    env_or w "DEPLOY_IMAGE" "dominicwhitehumanitec/canyonchat:latest" in
  let flyOrg := env_or w "FLY_ORG" "personal" in
  sendStatusUpdate
    (info ("Creating Fly app '" +:+ name +:+ "' in region '" +:+ flyRegion
             +:+ "'..."));;
  runCommand w "flyctl" ["apps"; "create"; name; "--org"; flyOrg];;
  sendStatusUpdate (info ("Fly app '" +:+ name +:+ "' created."));;
  sendStatusUpdate (info "Setting secrets in Fly app (one by one)...");;
  setSecrets name (secrets (geminiKey formData) newUserToken);;
  sendStatusUpdate (info "All secrets processed.");;
  let path := tmp_join ("fly_" +:+ deploymentId +:+ "_" +:+ name +:+ ".toml") in
  set_tempFlyTomlPath path;;
  sendStatusUpdate (info ("Writing temporary fly.toml to " +:+ path +:+ "..."));;
  writeFile w path (flyTomlContent name flyRegion imageName);;
  sendStatusUpdate
    (info ("Deploying image '" +:+ imageName +:+ "' to Fly app '" +:+ name
             +:+ "'..."));;
  runCommand w "flyctl"
    ["deploy"; "-a"; name; "-c"; path; "--image"; imageName; "--ha=false";
     "--detach"];;
  sendStatusUpdate (info "Fly deployment command initiated.").

(** The steps of the [try] block before its final call. *)
Definition provision (formData : FormData) (deploymentId : string) : M string :=
  name ← generateName formData;
  newUserToken ← setupHumanitec name;
  deployToFly formData deploymentId name newUserToken;;
  mret name.

(** The [try] block, lines 76-370. *)
Definition try_block (formData : FormData) (deploymentId : string) : M unit :=
  name ← provision formData deploymentId;
  sendStatusUpdate (success_event name).

(** The event of line 374. *)
Definition failed_event (msg : string) : ProgressEvent :=
  {| message := "Deployment failed: " +:+ msg;
     isError := true; isComplete := true; data := None |}.

Definition destroy_args (name : string) : list string :=
  ["apps"; "destroy"; name; "--yes"].

(** Lines 377-399. *)
Definition cleanup : M unit :=
  name ← get_uniqueAppName;
  if Js.nonempty name then
    sendStatusUpdate
      (info ("Attempting to clean up failed deployment for app " +:+ name
               +:+ "..."));;
    try_catch
      (runCommand w "flyctl" (destroy_args name);;
       sendStatusUpdate (info ("Cleaned up failed app " +:+ name +:+ ".")))
      (fun msg =>
         sendStatusUpdate
           (failure ("Failed to cleanup app " +:+ name +:+ ": " +:+ msg)))
  else mret tt.

(** The [catch] block, lines 371-399. *)
Definition catch_block (msg : string) : M unit :=
  sendStatusUpdate (failed_event msg);;
  cleanup.

(** The [finally] block, lines 400-417. *)
Definition finally_block (deploymentId : string) : M unit :=
  path ← get_tempFlyTomlPath;
  if Js.nonempty path then
    try_catch (unlink w path)
      (fun msg =>
         console_error
           ("[" +:+ deploymentId
              +:+ "] Warning: Failed to remove temporary config file "
              +:+ path +:+ ": " +:+ msg))
  else mret tt.

Definition startDeployment (formData : FormData) (deploymentId : string) : M unit :=
  set_uniqueAppName "";;
  set_tempFlyTomlPath "";;
  finally
    (try_catch (try_block formData deploymentId) catch_block)
    (finally_block deploymentId).

End StartDeployment.

(** ** The progress channel and the routes ([server.js]) *)

(** One [res.write] of an event: the identifier the route or the publisher
    was called with, the response object written to, and the event. *)
Record Delivery := {
  to_id : string;
  to_conn : nat;
  sent : ProgressEvent }.

Record Server := {
  (** the [clients] object: identifier to response object *)
  clients : gmap string nat;
  (** every [res.write], in order *)
  wire : list Delivery;
  (** the response objects that were ended *)
  ended : list nat;
  (** the [startDeployment] calls made so far *)
  started : list (string * FormData) }.

Inductive Reply :=
  | BadRequest (error : string)
  | Accepted (deploymentId : string)
  | EventStream.

Module Server.

Definition initial : Server :=
  {| clients := ∅; wire := []; ended := []; started := [] |}.

(** [sendStatusUpdate], lines 22-49. *)
Definition sendStatusUpdate (deploymentId : string) (e : ProgressEvent)
    (s : Server) : Server :=
  match clients s !! deploymentId with
  | Some conn =>
      let written :=
        wire s ++ [{| to_id := deploymentId; to_conn := conn; sent := e |}] in
      if isComplete e then
        {| clients := delete deploymentId (clients s); wire := written;
           ended := ended s ++ [conn]; started := started s |}
      else
        {| clients := clients s; wire := written; ended := ended s;
           started := started s |}
  | None => s
  end.

(** [POST /deploy], lines 54-107; [uuid] is what [crypto.randomUUID()]
    returns. *)
Definition postDeploy (formData : FormData) (uuid : string) (s : Server)
    : Reply * Server :=
  if negb (Value.truthy (orgName formData))
     || negb (Value.truthy (geminiKey formData))
  then (BadRequest "Missing required form fields (Organization Name, Gemini Key).", s)
  else
    (Accepted uuid,
     {| clients := clients s; wire := wire s; ended := ended s;
        started := started s ++ [(uuid, formData)] |}).

Definition greeting : ProgressEvent := info "Connected to status updates.".

(** [GET /status/:deploymentId], lines 110-135, for the response object
    [conn]. *)
Definition getStatus (deploymentId : string) (conn : nat) (s : Server)
    : Reply * Server :=
  if negb (Js.nonempty deploymentId) then (BadRequest "Missing deployment ID", s)
  else
    (EventStream,
     {| clients := <[deploymentId := conn]> (clients s);
        wire := wire s ++ [{| to_id := deploymentId; to_conn := conn;
                              sent := greeting |}];
        ended := ended s; started := started s |}).

(** The [close] handler of the request, lines 137-141. *)
Definition onClose (deploymentId : string) (conn : nat) (s : Server) : Server :=
  {| clients := delete deploymentId (clients s); wire := wire s;
     ended := ended s ++ [conn]; started := started s |}.

(** What happens at the channel: a subscriber connects, a connection
    closes, a run publishes. *)
Inductive Action :=
  | Connect (deploymentId : string) (conn : nat)
  | Disconnect (deploymentId : string) (conn : nat)
  | Publish (deploymentId : string) (e : ProgressEvent).

Definition step (s : Server) (a : Action) : Server :=
  match a with
  | Connect id conn => (getStatus id conn s).2
  | Disconnect id conn => onClose id conn s
  | Publish id e => sendStatusUpdate id e s
  end.

Definition exec (acts : list Action) (s : Server) : Server := foldl step s acts.

(** The events written for an identifier, in order. *)
Definition delivered (id : string) (s : Server) : list ProgressEvent :=
  sent <$> filter (fun d => to_id d = id) (wire s).

(** The events published for an identifier, in order. *)
Definition published (id : string) (acts : list Action) : list ProgressEvent :=
  omap (fun a => match a with
                 | Publish id' e => if decide (id' = id) then Some e else None
                 | _ => None
                 end) acts.

Definition connects (id : string) (a : Action) : bool :=
  match a with
  | Connect id' _ => bool_decide (id' = id)
  | _ => false
  end.

(** What one action writes for the identifier [id]. *)
Definition written (id : string) (s : Server) (a : Action) : list ProgressEvent :=
  match a with
  | Connect id' _ =>
      if bool_decide (id' = id) && Js.nonempty id' then [greeting] else []
  | Disconnect _ _ => []
  | Publish id' e =>
      if bool_decide (id' = id) then
        match clients s !! id' with Some _ => [e] | None => [] end
      else []
  end.

End Server.


(** ** The page that follows a deployment (the [App] component)

    The state of the component, and the handlers it puts on the
    [EventSource] of [/status/:deploymentId].  A received message is the
    event the server serialised; a closed [EventSource] gets no more
    messages. *)

Definition event_isComplete (e : ProgressEvent) : bool := isComplete e.

Module App.

Record State := {
  (** the lines of the log: type and text *)
  messages : list (string * string);
  isDeploying : bool;
  isComplete : bool;
  error : option string;
  finalUrl : option string;
  (** [eventSourceRef.current] is open *)
  eventSource_open : bool }.

(** The state in which the [EventSource] is created by [handleDeploy]. *)
Definition tracking (deploymentId : string) : State :=
  {| messages := [("info", "Deployment process initiated...");
                  ("info", "Tracking deployment ID: " +:+ deploymentId)];
     isDeploying := true; isComplete := false; error := None;
     finalUrl := None; eventSource_open := true |}.

Definition line (e : ProgressEvent) : string * string :=
  (if isError e then "error" else "info", message e).

(** [data.data && data.data.appUrl] *)
Definition appUrl (e : ProgressEvent) : option string :=
  match data e with
  | Some url => if Js.nonempty url then Some url else None
  | None => None
  end.

(** The [onmessage] handler. *)
Definition onmessage (e : ProgressEvent) (p : State) : State :=
  if event_isComplete e then
    {| messages := messages p ++ [line e];
       isDeploying := false;
       isComplete := true;
       error := if isError e then Some (message e) else error p;
       finalUrl :=
         match appUrl e with
         | Some url => if isError e then finalUrl p else Some url
         | None => finalUrl p
         end;
       eventSource_open := false |}
  else
    {| messages := messages p ++ [line e];
       isDeploying := isDeploying p; isComplete := isComplete p;
       error := error p; finalUrl := finalUrl p;
       eventSource_open := eventSource_open p |}.

(** The [onerror] handler. *)
Definition onerror (p : State) : State :=
  {| messages := messages p ++ [("error", "Status update connection error.")];
     isDeploying := false; isComplete := true;
     error := Some "Connection error with status updates.";
     finalUrl := finalUrl p; eventSource_open := false |}.

(** The messages of the stream, handled while the [EventSource] is open. *)
Definition receive (es : list ProgressEvent) (p : State) : State :=
  foldl (fun p e => if eventSource_open p then onmessage e p else p) p es.

(** A state variable that holds a non-empty string. *)
Definition set (o : option string) : bool :=
  match o with
  | Some x => Js.nonempty x
  | None => false
  end.

(** The green box with the address ([isComplete && finalUrl && !error]),
    and the red box with the error ([isComplete && error]). *)
Definition shows_url (p : State) : option string :=
  if isComplete p && set (finalUrl p) && negb (set (error p))
  then finalUrl p else None.

Definition shows_error (p : State) : option string :=
  if isComplete p && set (error p) then error p else None.

End App.

(** ** The subdomain proxy ([hono-proxy.ts])

    The routing decision of the handler: what it answers by itself, and the
    internal address it forwards to.  The request is its [host] header
    ([None] when absent) and the path and query of its URL. *)

Module Proxy.

Definition BASE_DOMAIN : string := "canyon-alpha.com".
Definition INTERNAL_PORT : Z := 8080.

(** [String.prototype.endsWith] *)
Fixpoint endsWith (s suffix : string) : bool :=
  String.eqb s suffix ||
  match s with
  | String _ s' => endsWith s' suffix
  | EmptyString => false
  end.

(** [String.prototype.indexOf]; [None] is the [-1] of no occurrence. *)
Fixpoint indexOf (s pat : string) : option nat :=
  if String.prefix pat s then Some 0%nat
  else
    match s with
    | String _ s' => S <$> indexOf s' pat
    | EmptyString => None
    end.

Inductive Reply :=
  | Text (status : Z) (body : string)
  | Forward (targetUrl : string).

(** [host.substring(0, host.indexOf(pat))]; a negative end counts as 0. *)
Definition before (host pat : string) : string :=
  String.substring 0 (default 0%nat (indexOf host pat)) host.

(** The handler of [app.all("*")] up to the forwarding [fetch]. *)
Definition route (host : option string) (pathAndQuery : string) : Reply :=
  match host with
  | None => Text 400 "Host header is missing"
  | Some host =>
      if negb (Js.nonempty host) then Text 400 "Host header is missing"
      else if negb (endsWith host ("." +:+ BASE_DOMAIN)) then
        if String.eqb host BASE_DOMAIN then
          Text 200 ("Hono Proxy Root - Ready to route subdomains of "
                      +:+ BASE_DOMAIN)
        else
          Text 400 ("Invalid host: " +:+ host
                      +:+ ". Expected a subdomain of " +:+ BASE_DOMAIN +:+ ".")
      else
        let subdomain := before host ("." +:+ BASE_DOMAIN) in
        if negb (Js.nonempty subdomain) then
          Text 400 "Could not determine target service from hostname."
        else
          Forward ("http://" +:+ subdomain +:+ ".railway.internal:"
                     +:+ Js.num_toString INTERNAL_PORT +:+ pathAndQuery)
  end.

(** No unit of the string is a dot. *)
Definition dotless (s : string) : bool :=
  Js.all_units (fun c => negb (Ascii.eqb c ".")) s.

End Proxy.

(** ** Scenarios *)

Module Scenario.

Definition acme : FormData :=
  {| orgName := VStr "Acme Inc!"; geminiKey := VStr "k" |}.

Definition api (method url : string) : FetchOutcome :=
  if String.eqb url "https://api.humanitec.io/orgs/canyon-demo/users" then
    Responds {| status := 201; text := "";
                json := inr (VObj [("id", VStr "u-1")]) |}
  else
    Responds {| status := 201; text := "";
                json := inr (VObj [("token", VStr "t-1")]) |}.

Definition exits (code : Z) (command : string) (args : list string)
    : list ChildEvent :=
  [StdoutData "ok"; Close (Some code)].

(** Everything works. *)
Definition happy : World :=
  {| env := {[ "HUMANITEC_SERVICE_USER_API_TOKEN" := "admin" ]};
     random_seed := 0;
     fetch := api;
     spawn := exits 0;
     tmpdir := "/tmp";
     write_fault := None;
     unlink_fault := None |}.

(** The administrative credential is not in the environment; destroying an
    application that does not exist exits with code 1. *)
Definition no_token : World :=
  {| env := ∅;
     random_seed := 0;
     fetch := api;
     spawn := fun command args =>
       match args with
       | "apps" :: "destroy" :: _ =>
           [StderrData "Error: Could not find App"; Close (Some 1)]
       | _ => exits 0 command args
       end;
     tmpdir := "/tmp";
     write_fault := None;
     unlink_fault := None |}.

(** The create command exits with code 1: the name is taken. *)
Definition create_fails : World :=
  {| env := {[ "HUMANITEC_SERVICE_USER_API_TOKEN" := "admin" ]};
     random_seed := 0;
     fetch := api;
     spawn := fun command args =>
       match args with
       | "apps" :: "create" :: _ =>
           [StderrData "Error: Name has already been taken"; Close (Some 1)]
       | _ => exits 0 command args
       end;
     tmpdir := "/tmp";
     write_fault := None;
     unlink_fault := None |}.


(** Everything works, except that the temporary file cannot be removed. *)
Definition sticky_file : World :=
  {| env := {[ "HUMANITEC_SERVICE_USER_API_TOKEN" := "admin" ]};
     random_seed := 0;
     fetch := api;
     spawn := exits 0;
     tmpdir := "/tmp";
     write_fault := None;
     unlink_fault := Some "EPERM: operation not permitted, unlink" |}.

(** A request whose organization name is blank. *)
Definition blank : FormData :=
  {| orgName := VStr "   "; geminiKey := VStr "k" |}.



(** The service user exists already: creating it answers 409, and the
    lookup by name lists it. *)
Definition conflict : World :=
  {| env := {[ "HUMANITEC_SERVICE_USER_API_TOKEN" := "admin" ]};
     random_seed := 0;
     fetch := fun method url =>
       if String.eqb method "GET" then
         Responds {| status := 200; text := "";
                     json := inr (VArr [VObj [("id", VStr "u-7")]]) |}
       else if String.eqb url "https://api.humanitec.io/orgs/canyon-demo/users"
       then Responds {| status := 409; text := "conflict"; json := inl "" |}
       else api method url;
     spawn := exits 0;
     tmpdir := "/tmp";
     write_fault := None;
     unlink_fault := None |}.

End Scenario.

(** ** Vocabulary of the properties *)

(** The same world, with another fault for [fs.unlink]. *)
Definition with_unlink_fault (fault : option string) (w : World) : World :=
  {| env := env w; random_seed := random_seed w; fetch := fetch w;
     spawn := spawn w; tmpdir := tmpdir w; write_fault := write_fault w;
     unlink_fault := fault |}.

(** An event that neither completes the stream nor carries a payload. *)
Definition plain (e : ProgressEvent) : Prop :=
  isComplete e = false /\ data e = None.

(** The number of events with [isComplete = true]. *)
Definition completions (es : list ProgressEvent) : nat :=
  length (filter (fun e => isComplete e = true) es).

(** A command line that destroys an application. *)
Definition is_destroy (argv : list string) : bool :=
  match argv with
  | "flyctl" :: "apps" :: "destroy" :: _ => true
  | _ => false
  end.

(** What the [catch] block publishes after the event of the failure, for the
    recorded name [name]: nothing when no name was recorded; otherwise the
    announcement, the calls of the wrapper running the destroy command, and
    the report on how that went. *)
Definition cleanup_report (name : string) (s : option Settlement)
    : list ProgressEvent :=
  match s with
  | Some (Resolved _) => [info ("Cleaned up failed app " +:+ name +:+ ".")]
  | Some (Rejected msg) =>
      [failure ("Failed to cleanup app " +:+ name +:+ ": " +:+ msg)]
  | None => []
  end.

Definition cleanup_events (w : World) (name : string) : list ProgressEvent :=
  if Js.nonempty name then
    let child :=
      run_child "flyctl" (destroy_args name)
        (spawn w "flyctl" (destroy_args name)) in
    info ("Attempting to clean up failed deployment for app " +:+ name
            +:+ "...")
      :: progress child ++ cleanup_report name (settled child)
  else [].

(** The destroy commands the [catch] block spawns for the recorded name. *)
Definition cleanup_commands (name : string) : list (list string) :=
  if Js.nonempty name then ["flyctl" :: destroy_args name] else [].

(** From [st] to [st'] the run has published plain events only, spawned no
    destroy command, and written no warning. *)
Definition grows (st st' : RunState) : Prop :=
  (exists es, events st' = events st ++ es /\ Forall plain es) /\
  (exists cs, spawned st' = spawned st ++ cs /\
              Forall (fun argv => is_destroy argv = false) cs) /\
  warnings st' = warnings st.

(** From [st] to [st'] the recorded application name is the same. *)
Definition keeps_name (st st' : RunState) : Prop :=
  uniqueAppName st' = uniqueAppName st.

(** Every state change of [m] is within the relation [R]. *)
Definition preserves (R : relation RunState) {A} (m : M A) : Prop :=
  forall st, R st (m st).2.

(** From [st] to [st'] no command was spawned. *)
Definition same_spawned (st st' : RunState) : Prop :=
  spawned st' = spawned st.

(** From [st] to [st'] neither the file system nor the recorded path of the
    temporary file has changed. *)
Definition same_store (st st' : RunState) : Prop :=
  files st' = files st /\ tempFlyTomlPath st' = tempFlyTomlPath st.



(** The two file systems hold the same at every path but [p]. *)
Definition agree_off (p : string) (fs fs' : gmap string string) : Prop :=
  forall p', p' <> p -> fs' !! p' = fs !! p'.

(** The path of the temporary file of a run (lines 305-308). *)
Definition temp_path (w : World) (deploymentId name : string) : string :=
  tmp_join w ("fly_" +:+ deploymentId +:+ "_" +:+ name +:+ ".toml").

(** The identifier an action of the channel is about. *)
Definition about (a : Server.Action) : string :=
  match a with
  | Server.Connect id _ | Server.Disconnect id _ | Server.Publish id _ => id
  end.

(** A connection for [id] is opened or closed. *)
Definition rewires (id : string) (a : Server.Action) : bool :=
  match a with
  | Server.Connect id' _ | Server.Disconnect id' _ => bool_decide (id' = id)
  | Server.Publish _ _ => false
  end.

(** The events up to and including the first terminal one. *)
Fixpoint upto_terminal (es : list ProgressEvent) : list ProgressEvent :=
  match es with
  | [] => []
  | e :: es' => e :: if isComplete e then [] else upto_terminal es'
  end.

(** What one event of the child adds to the accumulated stdout, and to the
    accumulated stderr. *)
Definition stdout_line (ev : ChildEvent) : option string :=
  match ev with
  | StdoutData chunk =>
      if Js.nonempty (Js.trim chunk) then Some (Js.trim chunk +:+ nl) else None
  | _ => None
  end.

Definition stderr_line (ev : ChildEvent) : option string :=
  match ev with
  | StderrData chunk =>
      if Js.nonempty (Js.trim chunk) then Some (Js.trim chunk +:+ nl) else None
  | _ => None
  end.

Definition concat_strings (l : list string) : string :=
  foldr String.append "" l.

(** The events written for an identifier to one response object. *)
Definition written_to (id : string) (conn : nat) (s : Server)
    : list ProgressEvent :=
  sent <$> filter (fun d => to_id d = id /\ to_conn d = conn) (wire s).

(** * Properties *)

(** ** Strings *)

Lemma append_nil_l (s : string) : "" +:+ s = s.
Proof. reflexivity. Qed.

Lemma append_cons (c : ascii) (a b : string) :
  String c a +:+ b = String c (a +:+ b).
Proof. reflexivity. Qed.

Ltac unfold_append := rewrite ?append_cons, ?append_nil_l in *.

Lemma length_append (a b : string) :
  String.length (a +:+ b) = (String.length a + String.length b)%nat.
Proof. induction a as [|c a IH]; unfold_append; simpl; [done | by rewrite IH]. Qed.

Lemma append_assoc (a b c : string) : (a +:+ b) +:+ c = a +:+ (b +:+ c).
Proof. induction a as [|x a IH]; unfold_append; congruence. Qed.

Lemma append_empty_r (a : string) : a +:+ "" = a.
Proof. induction a as [|x a IH]; unfold_append; congruence. Qed.

Lemma all_units_append (p : ascii -> bool) (a b : string) :
  Js.all_units p (a +:+ b) = Js.all_units p a && Js.all_units p b.
Proof.
  induction a as [|c a IH]; unfold_append; simpl; [done|].
  rewrite IH. by destruct (p c).
Qed.


Lemma length_substring_0 (n : nat) (s : string) :
  (String.length (String.substring 0 n s) <= n)%nat.
Proof.
  revert s. induction n as [|n IH]; intros [|c s]; simpl; try lia.
  specialize (IH s). lia.
Qed.

Lemma all_units_substring_0 (p : ascii -> bool) (n : nat) (s : string) :
  Js.all_units p s = true -> Js.all_units p (String.substring 0 n s) = true.
Proof.
  revert s. induction n as [|n IH]; intros [|c s]; simpl; try done.
  intros [Hc Hs]%andb_prop. rewrite Hc. simpl. by apply IH.
Qed.

Lemma replace_non_name_units (s : string) :
  Js.all_units Js.is_name_unit (Js.replace_non_name s) = true.
Proof.
  induction s as [|c s IH]; simpl; [done|].
  fold (Js.replace_non_name s). rewrite IH, andb_true_r.
  by destruct (Js.is_name_unit c) eqn:Hc.
Qed.

(** ** Trimming *)











(** ** Name derivation *)

Lemma randomSuffixNumber_range (seed : Z) :
  1000 <= randomSuffixNumber seed <= 9999.
Proof.
  unfold randomSuffixNumber.
  pose proof (Z.mod_pos_bound seed (2 ^ 53) eq_refl) as Hm.
  assert (0 <= 9000 * (seed mod 2 ^ 53) / 2 ^ 53 < 9000) as Hq.
  { split.
    - apply Z.div_pos; lia.
    - apply Z.div_lt_upper_bound; lia. }
  lia.
Qed.

Lemma suffixes_checked :
  forallb (fun k => suffix_ok (1000 + Z.of_nat k)) (seq 0 (Z.to_nat 9000)) = true.
Proof. vm_compute. reflexivity. Qed.

Lemma suffix_ok_in_range (n : Z) : 1000 <= n <= 9999 -> suffix_ok n = true.
Proof.
  intros Hn. pose proof suffixes_checked as H.
  rewrite forallb_forall in H.
  specialize (H (Z.to_nat (n - 1000))).
  replace (1000 + Z.of_nat (Z.to_nat (n - 1000))) with n in H by lia.
  apply H, in_seq. lia.
Qed.

Lemma all_units_impl (p q : ascii -> bool) (s : string) :
  (forall c, p c = true -> q c = true) ->
  Js.all_units p s = true -> Js.all_units q s = true.
Proof.
  intros Hpq. induction s as [|c s IH]; simpl; [done|].
  intros [Hc Hs]%andb_prop. by rewrite (Hpq _ Hc), IH.
Qed.

Lemma digit_is_name_unit (c : ascii) :
  Js.is_digit c = true -> Js.is_name_unit c = true.
Proof.
  unfold Js.is_name_unit, Js.is_digit. intros ->. by rewrite orb_true_r.
Qed.

Lemma sanitize_bounded (lowered : string) :
  (String.length (sanitize lowered) <= 40)%nat /\
  Js.all_units Js.is_name_unit (sanitize lowered) = true.
Proof.
  split; [apply length_substring_0|].
  apply all_units_substring_0, replace_non_name_units.
Qed.

Lemma randomSuffix_digits (seed : Z) :
  String.length (randomSuffix seed) = 4%nat /\
  Js.all_units Js.is_digit (randomSuffix seed) = true.
Proof.
  pose proof (suffix_ok_in_range _ (randomSuffixNumber_range seed)) as H.
  unfold suffix_ok in H.
  apply andb_prop in H as [[Hlen Hdig]%andb_prop _].
  split; [by apply Nat.eqb_eq | done].
Qed.

Lemma deriveAppName_bounded (orgName : string) (seed : Z) :
  (String.length (deriveAppName orgName seed) <= 45)%nat /\
  Js.all_units Js.is_name_unit (deriveAppName orgName seed) = true.
Proof.
  unfold deriveAppName, sanitizedOrgName.
  destruct (sanitize_bounded (Js.toLowerCase orgName)) as [Hlen Hunits].
  destruct (randomSuffix_digits seed) as [Hlen' Hdig].
  split.
  - rewrite !length_append, Hlen'. simpl. lia.
  - rewrite !all_units_append, Hunits. simpl.
    by rewrite (all_units_impl _ _ _ digit_is_name_unit Hdig).
Qed.

Lemma deriveAppName_nonempty (orgName : string) (seed : Z) :
  Js.nonempty (deriveAppName orgName seed) = true.
Proof.
  unfold deriveAppName.
  destruct (sanitizedOrgName orgName); unfold_append; [|done].
  destruct (randomSuffix_digits seed) as [Hlen _].
  by destruct (randomSuffix seed).
Qed.



(** ** The command execution wrapper *)


Lemma handle_all_cons (cs : string) (ev : ChildEvent) (evs : list ChildEvent)
    (c : Child) :
  handle_all cs (ev :: evs) c = handle_all cs evs (handle cs ev c).
Proof. reflexivity. Qed.



(** A settled promise stays as it is. *)
Lemma handle_settled_stable (cs : string) (ev : ChildEvent) (c : Child)
    (s : Settlement) :
  settled c = Some s -> settled (handle cs ev c) = Some s.
Proof.
  intros Hs. destruct ev as [chunk|chunk|msg|[[| |]|]]; simpl;
    try (by destruct (Js.nonempty (Js.trim chunk)));
    by rewrite Hs.
Qed.

Lemma handle_all_settled_stable (cs : string) (evs : list ChildEvent)
    (c : Child) (s : Settlement) :
  settled c = Some s -> settled (handle_all cs evs c) = Some s.
Proof.
  revert c. induction evs as [|ev evs IH]; intros c Hs; [done|].
  rewrite handle_all_cons. by apply IH, handle_settled_stable.
Qed.





(** ** Invariants of monadic code *)

Section Preserves.

Context (R : relation RunState) `{!PreOrder R}.

Lemma preserves_ret {A} (a : A) : preserves R (mret a).
Proof. intros st. simpl. reflexivity. Qed.

Lemma preserves_throw {A} (msg : string) : preserves R (throw msg : M A).
Proof. intros st. simpl. reflexivity. Qed.

Lemma preserves_bind {A B} (m : M A) (k : A -> M B) :
  preserves R m -> (forall a, preserves R (k a)) -> preserves R (m ≫= k).
Proof.
  intros Hm Hk st. specialize (Hm st).
  unfold mbind, M_bind. destruct (m st) as [[a|msg|] st']; simpl in *; try done.
  etrans; [exact Hm | apply Hk].
Qed.

Lemma preserves_try_catch {A} (m : M A) (h : string -> M A) :
  preserves R m -> (forall msg, preserves R (h msg)) ->
  preserves R (try_catch m h).
Proof.
  intros Hm Hh st. specialize (Hm st).
  unfold try_catch. destruct (m st) as [[a|msg|] st']; simpl in *; try done.
  etrans; [exact Hm | apply Hh].
Qed.

Lemma preserves_finally {A} (m : M A) (f : M unit) :
  preserves R m -> preserves R f -> preserves R (finally m f).
Proof.
  intros Hm Hf st. specialize (Hm st).
  unfold finally. destruct (m st) as [[a|msg|] st']; simpl in *; try done;
    specialize (Hf st'); destruct (f st') as [[[]|msg'|] st'']; simpl in *;
    by etrans.
Qed.

Lemma preserves_await_fetch (w : World) (method url : string) :
  preserves R (await_fetch w method url).
Proof.
  intros st. unfold await_fetch. destruct (fetch w method url); reflexivity.
Qed.

Lemma preserves_await_json (r : Response) : preserves R (await_json r).
Proof. intros st. unfold await_json. destruct (json r); reflexivity. Qed.

Lemma preserves_get_uniqueAppName : preserves R get_uniqueAppName.
Proof. intros st. reflexivity. Qed.

Lemma preserves_get_tempFlyTomlPath : preserves R get_tempFlyTomlPath.
Proof. intros st. reflexivity. Qed.

End Preserves.

#[global] Instance grows_preorder : PreOrder grows.
Proof.
  split.
  - intros st. repeat split; try (exists []; by rewrite app_nil_r).
  - intros st1 st2 st3 ([es1 [He1 Hp1]] & [cs1 [Hc1 Hd1]] & Hw1)
      ([es2 [He2 Hp2]] & [cs2 [Hc2 Hd2]] & Hw2).
    split; [|split].
    + exists (es1 ++ es2). rewrite He2, He1, app_assoc.
      split; [done | by apply Forall_app].
    + exists (cs1 ++ cs2). rewrite Hc2, Hc1, app_assoc.
      split; [done | by apply Forall_app].
    + congruence.
Qed.

Lemma plain_info (m : string) : plain (info m).
Proof. by split. Qed.

Lemma plain_failure (m : string) : plain (failure m).
Proof. by split. Qed.

Lemma plain_not_complete (es : list ProgressEvent) :
  Forall plain es -> completions es = 0%nat.
Proof.
  unfold completions. induction 1 as [|e es [He _] _ IH]; [done|].
  rewrite filter_cons_False; [done | by rewrite He].
Qed.

Lemma grows_publish (es : list ProgressEvent) (st : RunState) :
  Forall plain es -> grows st (Run.publish_all es st).
Proof.
  intros Hes. split; [|split]; simpl; [by exists es | | done].
  exists []. by rewrite app_nil_r.
Qed.

Lemma grows_sendStatusUpdate (e : ProgressEvent) :
  plain e -> preserves grows (sendStatusUpdate e).
Proof.
  intros He st. apply (grows_publish [e]). by constructor.
Qed.

Lemma grows_set_uniqueAppName (name : string) :
  preserves grows (set_uniqueAppName name).
Proof.
  intros st. simpl. repeat split; simpl; try (exists []; by rewrite app_nil_r).
Qed.

Lemma grows_set_tempFlyTomlPath (path : string) :
  preserves grows (set_tempFlyTomlPath path).
Proof.
  intros st. simpl. repeat split; simpl; try (exists []; by rewrite app_nil_r).
Qed.

Lemma grows_with_files (fs : gmap string string) (st : RunState) :
  grows st (Run.with_files fs st).
Proof. repeat split; simpl; try (exists []; by rewrite app_nil_r). Qed.

Lemma grows_writeFile (w : World) (path content : string) :
  preserves grows (writeFile w path content).
Proof.
  intros st. unfold writeFile.
  destruct (write_fault w) as [[msg []]|]; simpl;
    try apply grows_with_files; reflexivity.
Qed.

(** The wrapper itself only makes plain calls of the progress callback. *)
Lemma handle_progress_plain (cs : string) (ev : ChildEvent) (c : Child) :
  Forall plain (progress c) -> Forall plain (progress (handle cs ev c)).
Proof.
  intros Hc.
  destruct ev as [chunk|chunk|msg|[[| |]|]]; simpl;
    try destruct (Js.nonempty (Js.trim chunk)); simpl;
    try done; apply Forall_app; split; try done;
    constructor; try done; by split.
Qed.

Lemma handle_all_progress_plain (cs : string) (evs : list ChildEvent) (c : Child) :
  Forall plain (progress c) -> Forall plain (progress (handle_all cs evs c)).
Proof.
  revert c. induction evs as [|ev evs IH]; intros c Hc; [done|].
  rewrite handle_all_cons. by apply IH, handle_progress_plain.
Qed.

Lemma run_child_progress_plain (command : string) (args : list string)
    (evs : list ChildEvent) :
  Forall plain (progress (run_child command args evs)).
Proof.
  apply handle_all_progress_plain. simpl. constructor; [by split | done].
Qed.

(** What a [runCommand] call does to the state of the run. *)
Lemma runCommand_state (w : World) (command : string) (args : list string)
    (st : RunState) :
  let st' := (runCommand w command args st).2 in
  events st' =
    events st ++ progress (run_child command args (spawn w command args)) /\
  spawned st' = spawned st ++ [command :: args] /\
  files st' = files st /\ warnings st' = warnings st /\
  uniqueAppName st' = uniqueAppName st /\
  tempFlyTomlPath st' = tempFlyTomlPath st.
Proof.
  unfold runCommand.
  by destruct (settled (run_child command args (spawn w command args)))
    as [[r|msg]|].
Qed.

(** Awaiting the promise: its value, its error, or no return at all. *)
Lemma runCommand_completion (w : World) (command : string) (args : list string)
    (st : RunState) :
  (runCommand w command args st).1 =
  match settled (run_child command args (spawn w command args)) with
  | Some (Resolved r) => Normal r
  | Some (Rejected msg) => Throw msg
  | None => Stalled
  end.
Proof.
  unfold runCommand.
  by destruct (settled (run_child command args (spawn w command args)))
    as [[r|msg]|].
Qed.

Lemma grows_runCommand (w : World) (command : string) (args : list string) :
  is_destroy (command :: args) = false ->
  preserves grows (runCommand w command args).
Proof.
  intros Hnd st.
  destruct (runCommand_state w command args st) as (He & Hs & _ & Hw & _).
  split; [|split]; [| |done].
  - eexists. split; [exact He | apply run_child_progress_plain].
  - eexists. split; [exact Hs | by constructor].
Qed.

#[global] Instance keeps_name_preorder : PreOrder keeps_name.
Proof. split; unfold keeps_name; [by intros st | intros st1 st2 st3; congruence]. Qed.

Lemma keeps_name_sendStatusUpdate (e : ProgressEvent) :
  preserves keeps_name (sendStatusUpdate e).
Proof. by intros st. Qed.

Lemma keeps_name_set_tempFlyTomlPath (path : string) :
  preserves keeps_name (set_tempFlyTomlPath path).
Proof. by intros st. Qed.

Lemma keeps_name_writeFile (w : World) (path content : string) :
  preserves keeps_name (writeFile w path content).
Proof.
  intros st. unfold writeFile. by destruct (write_fault w) as [[msg []]|].
Qed.

Lemma keeps_name_runCommand (w : World) (command : string) (args : list string) :
  preserves keeps_name (runCommand w command args).
Proof. intros st. apply runCommand_state. Qed.

(** ** The steps before the final call publish plain events only *)

Ltac structural_step R :=
  lazymatch goal with
  | |- preserves R (mbind _ _) => apply (preserves_bind R); [|intros ?]
  | |- preserves R (mret _) => apply (preserves_ret R)
  | |- preserves R (throw _) => apply (preserves_throw R)
  | |- preserves R (try_catch _ _) => apply (preserves_try_catch R); [|intros ?]
  | |- preserves R (await_fetch _ _ _) => apply (preserves_await_fetch R)
  | |- preserves R (await_json _) => apply (preserves_await_json R)
  | |- preserves R (if ?b then _ else _) => destruct b
  | |- preserves R (match ?x with _ => _ end) => destruct x
  | |- preserves R (let _ := _ in _) => cbv zeta
  end.

Ltac grows_step :=
  first
    [ structural_step grows
    | apply grows_sendStatusUpdate; first [apply plain_info | apply plain_failure]
    | apply grows_set_uniqueAppName
    | apply grows_set_tempFlyTomlPath
    | apply grows_writeFile
    | apply grows_runCommand; reflexivity ].

Ltac keeps_name_step :=
  first
    [ structural_step keeps_name
    | apply keeps_name_sendStatusUpdate
    | apply keeps_name_set_tempFlyTomlPath
    | apply keeps_name_writeFile
    | apply keeps_name_runCommand ].

Section Quiet.

Context (w : World).

Lemma grows_generateName (formData : FormData) :
  preserves grows (generateName w formData).
Proof.
  unfold generateName, orgName_toLowerCase. repeat grows_step.
Qed.

Lemma grows_users_lack_id (users : value) :
  preserves grows (users_lack_id users).
Proof. unfold users_lack_id. repeat grows_step. Qed.

Lemma grows_setupUser (serviceUserName : string) :
  preserves grows (setupUser w serviceUserName).
Proof.
  unfold setupUser.
  repeat first [apply grows_users_lack_id | grows_step].
Qed.

Lemma grows_setupToken (newUserId : value) (tokenId : string) :
  preserves grows (setupToken w newUserId tokenId).
Proof. unfold setupToken. repeat grows_step. Qed.

Lemma grows_setupHumanitec (name : string) :
  preserves grows (setupHumanitec w name).
Proof.
  unfold setupHumanitec.
  repeat first [apply grows_setupUser | apply grows_setupToken | grows_step].
Qed.

Lemma grows_setSecrets (name : string) (entries : list (string * value)) :
  preserves grows (setSecrets w name entries).
Proof.
  induction entries as [|[key v] rest IH]; simpl.
  - apply (preserves_ret grows).
  - repeat first [exact IH | grows_step].
Qed.

Lemma grows_deployToFly (formData : FormData) (deploymentId name : string)
    (newUserToken : value) :
  preserves grows (deployToFly w formData deploymentId name newUserToken).
Proof.
  unfold deployToFly.
  repeat first [apply grows_setSecrets | grows_step].
Qed.

Lemma keeps_name_users_lack_id (users : value) :
  preserves keeps_name (users_lack_id users).
Proof. unfold users_lack_id. repeat keeps_name_step. Qed.

Lemma keeps_name_setupHumanitec (name : string) :
  preserves keeps_name (setupHumanitec w name).
Proof.
  unfold setupHumanitec, setupUser, setupToken.
  repeat first [apply keeps_name_users_lack_id | keeps_name_step].
Qed.

Lemma keeps_name_setSecrets (name : string) (entries : list (string * value)) :
  preserves keeps_name (setSecrets w name entries).
Proof.
  induction entries as [|[key v] rest IH]; simpl.
  - apply (preserves_ret keeps_name).
  - repeat first [exact IH | keeps_name_step].
Qed.

Lemma keeps_name_deployToFly (formData : FormData) (deploymentId name : string)
    (newUserToken : value) :
  preserves keeps_name (deployToFly w formData deploymentId name newUserToken).
Proof.
  unfold deployToFly.
  repeat first [apply keeps_name_setSecrets | keeps_name_step].
Qed.

Lemma grows_provision (formData : FormData) (deploymentId : string) :
  preserves grows (provision w formData deploymentId).
Proof.
  unfold provision.
  repeat first [apply grows_generateName | apply grows_setupHumanitec
               | apply grows_deployToFly | grows_step].
Qed.

End Quiet.

(** ** The three blocks of [startDeployment] *)

Section Blocks.

Context (w : World).

Lemma startDeployment_blocks (formData : FormData) (deploymentId : string)
    (fs : gmap string string) :
  startDeployment w formData deploymentId (Run.initial fs) =
  finally (try_catch (try_block w formData deploymentId) (catch_block w))
    (finally_block w deploymentId) (Run.initial fs).
Proof. reflexivity. Qed.

Lemma try_block_cases (formData : FormData) (deploymentId : string)
    (st : RunState) :
  try_block w formData deploymentId st =
  match provision w formData deploymentId st with
  | (Normal name, st1) => (Normal tt, Run.publish (success_event name) st1)
  | (Throw msg, st1) => (Throw msg, st1)
  | (Stalled, st1) => (Stalled, st1)
  end.
Proof.
  unfold try_block, mbind, M_bind.
  by destruct (provision w formData deploymentId st) as [[name|msg|] st1].
Qed.

Lemma generateName_normal (formData : FormData) (st st' : RunState)
    (name : string) :
  generateName w formData st = (Normal name, st') ->
  exists s, orgName formData = VStr s /\
            name = deriveAppName s (random_seed w) /\
            uniqueAppName st' = name.
Proof.
  unfold generateName, orgName_toLowerCase, mbind, M_bind.
  destruct (orgName formData) as [| | | |s| |]; simpl; try done.
  intros [= <- <-]. by exists s.
Qed.

Lemma provision_normal (formData : FormData) (deploymentId : string)
    (st st' : RunState) (name : string) :
  provision w formData deploymentId st = (Normal name, st') ->
  exists s, orgName formData = VStr s /\
            name = deriveAppName s (random_seed w).
Proof.
  unfold provision. unfold mbind at 1, M_bind at 1.
  destruct (generateName w formData st) as [[name0|msg|] st0] eqn:Hgen;
    try done.
  apply generateName_normal in Hgen as (s & Hs & Hname & _).
  unfold mbind, M_bind.
  destruct (setupHumanitec w name0 st0) as [[tok|msg|] st1]; try done.
  destruct (deployToFly w formData deploymentId name0 tok st1)
    as [[[]|msg|] st2]; try done.
  unfold mret, M_ret. intros [= <- <-]. by exists s.
Qed.

(** The events of the [try] block: plain ones, and the success event at the
    end exactly when the block completes. *)
Lemma try_block_events (formData : FormData) (deploymentId : string)
    (fs : gmap string string) :
  let r := try_block w formData deploymentId (Run.initial fs) in
  match r.1 with
  | Normal _ =>
      exists s pre,
        orgName formData = VStr s /\
        events r.2 = pre ++ [success_event (deriveAppName s (random_seed w))] /\
        Forall plain pre
  | _ => Forall plain (events r.2)
  end /\
  Forall (fun argv => is_destroy argv = false) (spawned r.2) /\
  warnings r.2 = [].
Proof.
  intros r. subst r. rewrite try_block_cases.
  pose proof (grows_provision w formData deploymentId (Run.initial fs))
    as ([es [Hes Hplain]] & [cs [Hcs Hnd]] & Hw).
  destruct (provision w formData deploymentId (Run.initial fs))
    as [[name|msg|] st1] eqn:Hprov; simpl in *;
    (split; [|split; [by rewrite Hcs | done]]).
  - apply provision_normal in Hprov as (s & Hs & ->).
    exists s, es. by rewrite Hes.
  - by rewrite Hes.
  - by rewrite Hes.
Qed.

Lemma cleanup_events_plain (name : string) :
  Forall plain (cleanup_events w name).
Proof.
  unfold cleanup_events. destruct (Js.nonempty name); [|done].
  constructor; [by split|]. apply Forall_app. split.
  - apply run_child_progress_plain.
  - unfold cleanup_report.
    destruct (settled _) as [[r|msg]|]; repeat constructor.
Qed.

(** The [catch] block never throws; it publishes the event of the failure
    and then the events of the cleanup, and spawns the destroy command for
    the recorded name. *)
Lemma catch_block_spec (msg : string) (st : RunState) :
  let r := catch_block w msg st in
  (forall m, r.1 <> Throw m) /\
  events r.2 =
    events st ++ failed_event msg :: cleanup_events w (uniqueAppName st) /\
  spawned r.2 = spawned st ++ cleanup_commands (uniqueAppName st) /\
  files r.2 = files st /\ warnings r.2 = warnings st /\
  uniqueAppName r.2 = uniqueAppName st /\
  tempFlyTomlPath r.2 = tempFlyTomlPath st.
Proof.
  unfold catch_block, cleanup, cleanup_events, cleanup_commands,
    get_uniqueAppName, sendStatusUpdate, try_catch, mbind, M_bind, mret, M_ret.
  simpl. destruct (Js.nonempty (uniqueAppName st)); simpl.
  - unfold runCommand. simpl.
    destruct (settled (run_child "flyctl" (destroy_args (uniqueAppName st))
                         (spawn w "flyctl" (destroy_args (uniqueAppName st)))))
      as [[r|m]|]; simpl; rewrite <- ?app_assoc; simpl;
      by rewrite ?app_nil_r.
  - by rewrite app_nil_r.
Qed.

(** The [finally] block completes; it touches the file system and the
    console only, and when [fs.unlink] has no fault the recorded file is
    gone afterwards. *)
Lemma finally_block_spec (deploymentId : string) (st : RunState) :
  let r := finally_block w deploymentId st in
  r.1 = Normal tt /\
  events r.2 = events st /\ spawned r.2 = spawned st /\
  uniqueAppName r.2 = uniqueAppName st /\
  tempFlyTomlPath r.2 = tempFlyTomlPath st /\
  (length (warnings r.2) <= length (warnings st) + 1)%nat /\
  (tempFlyTomlPath st = "" -> files r.2 = files st /\ warnings r.2 = warnings st) /\
  (unlink_fault w = None ->
   warnings r.2 = warnings st \/ files st !! tempFlyTomlPath st = None) /\
  (unlink_fault w = None -> tempFlyTomlPath st <> "" ->
   files r.2 !! tempFlyTomlPath st = None).
Proof.
  unfold finally_block, get_tempFlyTomlPath, try_catch, unlink, console_error,
    mbind, M_bind, mret, M_ret.
  simpl. destruct (tempFlyTomlPath st) as [|c path] eqn:Hpath; simpl.
  - repeat split; auto with lia. done.
  - destruct (files st !! String c path) eqn:Hfile; simpl.
    + destruct (unlink_fault w) as [fault|]; simpl;
        repeat split; auto; try done;
        rewrite ?length_app; simpl; try lia.
      intros _ _. apply lookup_delete_eq.
    + repeat split; auto; try done; rewrite ?length_app; simpl; lia.
Qed.

End Blocks.

(** ** A whole run *)

(** How a run is made of its [try] block: the [catch] block adds the event
    of the failure and the cleanup, the [finally] block adds nothing that is
    published or spawned, and nothing is thrown to the caller. *)
Lemma run_shape (w : World) (formData : FormData) (deploymentId : string)
    (fs : gmap string string) :
  let t := try_block w formData deploymentId (Run.initial fs) in
  let r := startDeployment w formData deploymentId (Run.initial fs) in
  (forall m, r.1 <> Throw m) /\
  events r.2 =
    events t.2 ++
    match t.1 with
    | Throw msg => failed_event msg :: cleanup_events w (uniqueAppName t.2)
    | _ => []
    end /\
  spawned r.2 =
    spawned t.2 ++
    match t.1 with
    | Throw _ => cleanup_commands (uniqueAppName t.2)
    | _ => []
    end /\
  uniqueAppName r.2 = uniqueAppName t.2 /\
  tempFlyTomlPath r.2 = tempFlyTomlPath t.2.
Proof.
  intros t r. subst r. rewrite startDeployment_blocks.
  unfold finally, try_catch. fold t.
  destruct t as [[[]|msg|] st1]; simpl.
  - destruct (finally_block_spec w deploymentId st1)
      as (Hc & He & Hs & Hn & Hp & _).
    destruct (finally_block w deploymentId st1) as [c st2]; simpl in *.
    subst c. simpl. by rewrite He, Hs, !app_nil_r.
  - destruct (catch_block_spec w msg st1) as (Hc & He & Hs & _ & _ & Hn & Hp).
    destruct (catch_block w msg st1) as [[[]|m|] st2]; simpl in *.
    + destruct (finally_block_spec w deploymentId st2)
        as (Hc' & He' & Hs' & Hn' & Hp' & _).
      destruct (finally_block w deploymentId st2) as [c st3]; simpl in *.
      subst c. simpl. repeat split; congruence.
    + by destruct (Hc m).
    + done.
  - by rewrite !app_nil_r.
Qed.



Lemma no_destroy_filter (l : list (list string)) :
  Forall (fun argv => is_destroy argv = false) l ->
  filter (fun argv => is_destroy argv = true) l = [].
Proof.
  induction 1 as [|argv l Hargv _ IH]; [done|].
  rewrite filter_cons_False; [done | by rewrite Hargv].
Qed.

(** The destroy commands of a run: one, for the recorded name, when the
    [try] block threw with a name recorded, and none otherwise. *)
Lemma run_destroy_commands (w : World) (formData : FormData)
    (deploymentId : string) (fs : gmap string string) :
  let t := try_block w formData deploymentId (Run.initial fs) in
  filter (fun argv => is_destroy argv = true)
    (spawned (startDeployment w formData deploymentId (Run.initial fs)).2) =
  match t.1 with
  | Throw _ => cleanup_commands (uniqueAppName t.2)
  | _ => []
  end.
Proof.
  intros t.
  destruct (run_shape w formData deploymentId fs) as (_ & _ & Hs & _).
  destruct (try_block_events w formData deploymentId fs) as (_ & Hnd & _).
  fold t in Hs, Hnd. rewrite Hs, filter_app.
  rewrite (no_destroy_filter _ Hnd). simpl.
  destruct t.1; try done. unfold cleanup_commands.
  by destruct (Js.nonempty _).
Qed.

(** The name on record when the [try] block ends: the derived name when the
    organization name is a string, and none otherwise. *)
Lemma generateName_name (w : World) (formData : FormData) (st : RunState) :
  uniqueAppName (generateName w formData st).2 =
  match orgName formData with
  | VStr s => deriveAppName s (random_seed w)
  | _ => uniqueAppName st
  end.
Proof.
  unfold generateName, orgName_toLowerCase, mbind, M_bind.
  by destruct (orgName formData).
Qed.

Lemma provision_name (w : World) (formData : FormData) (deploymentId : string)
    (st : RunState) :
  uniqueAppName (provision w formData deploymentId st).2 =
  uniqueAppName (generateName w formData st).2.
Proof.
  unfold provision. unfold mbind at 1, M_bind at 1.
  destruct (generateName w formData st) as [[name|msg|] st0]; try done.
  simpl.
  assert (preserves keeps_name
            (setupHumanitec w name ≫= fun newUserToken =>
             deployToFly w formData deploymentId name newUserToken ;;
             mret name)) as Hkeep.
  { repeat first [apply keeps_name_setupHumanitec
                 | apply keeps_name_deployToFly | keeps_name_step]. }
  apply Hkeep.
Qed.

Lemma try_block_name (w : World) (formData : FormData) (deploymentId : string)
    (fs : gmap string string) :
  uniqueAppName (try_block w formData deploymentId (Run.initial fs)).2 =
  match orgName formData with
  | VStr s => deriveAppName s (random_seed w)
  | _ => ""
  end.
Proof.
  rewrite try_block_cases.
  pose proof (provision_name w formData deploymentId (Run.initial fs)) as Hn.
  rewrite generateName_name in Hn.
  destruct (provision w formData deploymentId (Run.initial fs))
    as [[name|msg|] st1]; simpl in *; rewrite Hn;
    by destruct (orgName formData).
Qed.

(** X3: when a run issues a destroy command: exactly when its [try] block fails
    with an organization name that is a string, that is, at any step after
    the name was derived, whether or not the application was created; then
    it issues one, for the derived name. *)
Lemma run_destroys_derived_name (w : World) (formData : FormData)
    (deploymentId : string) (fs : gmap string string) :
  filter (fun argv => is_destroy argv = true)
    (spawned (startDeployment w formData deploymentId (Run.initial fs)).2) =
  match (try_block w formData deploymentId (Run.initial fs)).1,
        orgName formData with
  | Throw _, VStr s =>
      [["flyctl"; "apps"; "destroy"; deriveAppName s (random_seed w); "--yes"]]
  | _, _ => []
  end.
Proof.
  rewrite run_destroy_commands, try_block_name.
  destruct (try_block w formData deploymentId (Run.initial fs)).1; try done;
    destruct (orgName formData) as [| | | |s| |]; try done.
  unfold cleanup_commands. by rewrite deriveAppName_nonempty.
Qed.

(** C1, at two failing inputs.  With the administrative credential missing
    from the environment, the run for "Acme Inc!" fails in the identity
    step, before any create command, and still spawns one command: the
    destroy command for the derived name.  When the create command itself
    exits with code 1, the destroy command for the same name follows it. *)
Theorem destroy_without_creation :
  let r := startDeployment Scenario.no_token Scenario.acme "dep-1" (Run.initial ∅) in
  let r' := startDeployment Scenario.create_fails Scenario.acme "dep-1" (Run.initial ∅) in
  (try_block Scenario.no_token Scenario.acme "dep-1" (Run.initial ∅)).1 =
    Throw "Missing HUMANITEC_SERVICE_USER_API_TOKEN in environment variables." /\
  spawned r.2 = [["flyctl"; "apps"; "destroy"; "acme-inc--1000"; "--yes"]] /\
  spawned r'.2 =
    [["flyctl"; "apps"; "create"; "acme-inc--1000"; "--org"; "personal"];
     ["flyctl"; "apps"; "destroy"; "acme-inc--1000"; "--yes"]].
Proof. by vm_compute. Qed.




(** C9: in every run whose [try] block completes, the run completes, and the
    last event published has [isComplete = true], [isError = false] and the
    payload [appUrl = https://<name>.canyon-beta.com] for the name derived
    from the organization name; every event before it has no payload (and
    is not terminal). *)
Theorem success_event_last (w : World) (formData : FormData)
    (deploymentId : string) (fs : gmap string string) :
  (try_block w formData deploymentId (Run.initial fs)).1 = Normal tt ->
  let r := startDeployment w formData deploymentId (Run.initial fs) in
  exists s pre,
    orgName formData = VStr s /\
    r.1 = Normal tt /\
    events r.2 = pre ++ [success_event (deriveAppName s (random_seed w))] /\
    isComplete (success_event (deriveAppName s (random_seed w))) = true /\
    isError (success_event (deriveAppName s (random_seed w))) = false /\
    data (success_event (deriveAppName s (random_seed w))) =
      Some ("https://" +:+ deriveAppName s (random_seed w) +:+ ".canyon-beta.com") /\
    Forall (fun e => data e = None /\ isComplete e = false) pre.
Proof.
  intros Hok r.
  destruct (run_shape w formData deploymentId fs) as (_ & He & _).
  destruct (try_block_events w formData deploymentId fs) as (Ht & _).
  rewrite Hok in He, Ht. destruct Ht as (s & pre & Hs & Hev & Hpre).
  exists s, pre. fold r in He. rewrite He, app_nil_r.
  repeat split; try done.
  - subst r. rewrite startDeployment_blocks. unfold finally, try_catch.
    destruct (try_block w formData deploymentId (Run.initial fs))
      as [c st1]; simpl in Hok; subst c.
    destruct (finally_block_spec w deploymentId st1) as (Hc & _).
    by destruct (finally_block w deploymentId st1) as [[[]|m|] st2].
  - eapply Forall_impl; [exact Hpre|]. by intros e [? ?].
Qed.

Lemma success_event_last_witness :
  exists pre,
    events (startDeployment Scenario.happy Scenario.acme "dep-1"
              (Run.initial ∅)).2 =
    pre ++ [success_event "acme-inc--1000"].
Proof.
  destruct (success_event_last Scenario.happy Scenario.acme "dep-1" ∅ eq_refl)
    as (s & pre & Hs & _ & Hev & _).
  injection Hs as <-. by exists pre.
Defined.

(** C8, as the specification states it, fails: when [fs.unlink] fails, the
    run ends (here successfully) and the temporary file is still there; the
    failure is only logged. *)
Lemma temp_file_survives_unlink_failure :
  let r := startDeployment Scenario.sticky_file Scenario.acme "dep-1" (Run.initial ∅) in
  r.1 = Normal tt /\
  tempFlyTomlPath r.2 = "/tmp/fly_dep-1_acme-inc--1000.toml" /\
  is_Some (files r.2 !! "/tmp/fly_dep-1_acme-inc--1000.toml") /\
  warnings r.2 =
    ["[dep-1] Warning: Failed to remove temporary config file /tmp/fly_dep-1_acme-inc--1000.toml: EPERM: operation not permitted, unlink"].
Proof. vm_compute. repeat split; eauto. Qed.

(** C8, amended: in every run that ends, the finalization step has run;
    when the deletion does not fail, the file whose path the run recorded
    is absent afterwards.  Whether the deletion fails or not changes
    neither how the run completes, nor the events published to the
    subscriber, nor the commands spawned; a failure adds one line to the
    console, and nothing else is logged there. *)
Theorem temp_file_finalization (w : World) (formData : FormData)
    (deploymentId : string) (fs : gmap string string) :
  let r := startDeployment w formData deploymentId (Run.initial fs) in
  r.1 <> Stalled ->
  (unlink_fault w = None -> tempFlyTomlPath r.2 <> "" ->
   files r.2 !! tempFlyTomlPath r.2 = None) /\
  (forall fault,
     let r' := startDeployment (with_unlink_fault fault w) formData
                 deploymentId (Run.initial fs) in
     r'.1 = r.1 /\ events r'.2 = events r.2 /\ spawned r'.2 = spawned r.2) /\
  (length (warnings r.2) <= 1)%nat.
Proof.
  intros r Hends.
  destruct (try_block_events w formData deploymentId fs) as (_ & _ & Hwarn).
  assert (forall fault,
    try_catch (try_block (with_unlink_fault fault w) formData deploymentId)
      (catch_block (with_unlink_fault fault w)) (Run.initial fs) =
    try_catch (try_block w formData deploymentId) (catch_block w)
      (Run.initial fs)) as Hsame by reflexivity.
  assert (warnings
            (try_catch (try_block w formData deploymentId) (catch_block w)
               (Run.initial fs)).2 = []) as Hwarn'.
  { unfold try_catch.
    destruct (try_block w formData deploymentId (Run.initial fs))
      as [[[]|msg|] st1]; simpl in *; try done.
    destruct (catch_block_spec w msg st1) as (_ & _ & _ & _ & Hw & _).
    congruence. }
  subst r. rewrite startDeployment_blocks in *.
  split; [|split].
  - intros Hfault. unfold finally in *.
    destruct (try_catch _ _ (Run.initial fs)) as [c st1].
    destruct (finally_block_spec w deploymentId st1)
      as (Hc & _ & _ & _ & Hp & _ & _ & _ & Hgone).
    destruct (finally_block w deploymentId st1) as [c' st2]; simpl in *.
    subst c'. destruct c as [[]|msg|]; simpl in *; try done;
      rewrite Hp; auto.
  - intros fault r'. subst r'. rewrite startDeployment_blocks.
    unfold finally. rewrite Hsame.
    destruct (try_catch _ _ (Run.initial fs)) as [c st1].
    destruct (finally_block_spec w deploymentId st1) as (Hc & He & Hs & _).
    destruct (finally_block_spec (with_unlink_fault fault w) deploymentId st1)
      as (Hc' & He' & Hs' & _).
    destruct (finally_block w deploymentId st1) as [c1 st2].
    destruct (finally_block (with_unlink_fault fault w) deploymentId st1)
      as [c2 st2'].
    simpl in *. subst c1 c2.
    destruct c as [[]|msg|]; simpl; repeat split; congruence.
  - unfold finally.
    destruct (try_catch _ _ (Run.initial fs)) as [c st1].
    destruct (finally_block_spec w deploymentId st1)
      as (Hc & _ & _ & _ & _ & Hlen & _).
    destruct (finally_block w deploymentId st1) as [c' st2]; simpl in *.
    subst c'. rewrite Hwarn' in Hlen.
    destruct c as [[]|msg|]; simpl in *; rewrite ?Hwarn'; simpl; lia.
Qed.

Lemma temp_file_finalization_witness :
  files (startDeployment Scenario.happy Scenario.acme "dep-1" (Run.initial ∅)).2
    !! "/tmp/fly_dep-1_acme-inc--1000.toml" = None.
Proof.
  refine (proj1 (temp_file_finalization Scenario.happy Scenario.acme "dep-1" ∅
                   _) eq_refl _); discriminate.
Defined.

(** ** The progress channel *)

Lemma delivered_snoc (id : string) (s : Server) (d : Delivery) (wire' : list Delivery) :
  wire' = wire s ++ [d] ->
  sent <$> filter (fun d => to_id d = id) wire' =
  Server.delivered id s ++ (if bool_decide (to_id d = id) then [sent d] else []).
Proof.
  intros ->. unfold Server.delivered. rewrite filter_app, fmap_app. f_equal.
  case_bool_decide.
  - by rewrite filter_cons_True.
  - rewrite filter_cons_False by done. done.
Qed.

Lemma step_delivered (id : string) (s : Server) (a : Server.Action) :
  Server.delivered id (Server.step s a) =
  Server.delivered id s ++ Server.written id s a.
Proof.
  destruct a as [id' conn|id' conn|id' e]; simpl.
  - unfold Server.getStatus. destruct (Js.nonempty id'); simpl.
    + unfold Server.delivered at 1. simpl.
      erewrite delivered_snoc by reflexivity. simpl.
      by rewrite andb_true_r.
    + by rewrite andb_false_r, app_nil_r.
  - by rewrite app_nil_r.
  - unfold Server.sendStatusUpdate.
    destruct (clients s !! id') as [conn|].
    + destruct (isComplete e); unfold Server.delivered at 1; simpl;
        erewrite delivered_snoc by reflexivity; simpl; done.
    + case_bool_decide; by rewrite app_nil_r.
Qed.


Lemma exec_app (acts acts' : list Server.Action) (s : Server) :
  Server.exec (acts ++ acts') s = Server.exec acts' (Server.exec acts s).
Proof. apply foldl_app. Qed.

Lemma completions_app (es es' : list ProgressEvent) :
  completions (es ++ es') = (completions es + completions es')%nat.
Proof. unfold completions. by rewrite filter_app, length_app. Qed.


Lemma publish_complete_unregisters (id : string) (e : ProgressEvent) (s : Server) :
  isComplete e = true -> clients (Server.sendStatusUpdate id e s) !! id = None.
Proof.
  intros He. unfold Server.sendStatusUpdate.
  destruct (clients s !! id) as [conn|] eqn:Hc; [|done].
  rewrite He. simpl. apply lookup_delete_eq.
Qed.

(** Without a registration and without a new connection nothing is
    written. *)
Lemma unregistered_silent (id : string) (acts : list Server.Action) (s : Server) :
  clients s !! id = None ->
  forallb (fun a => negb (Server.connects id a)) acts = true ->
  clients (Server.exec acts s) !! id = None /\
  Server.delivered id (Server.exec acts s) = Server.delivered id s.
Proof.
  revert s. induction acts as [|a acts IH]; intros s Hnone Hacts; [done|].
  simpl in Hacts. apply andb_prop in Hacts as [Ha Hacts].
  change (Server.exec (a :: acts) s) with (Server.exec acts (Server.step s a)).
  assert (clients (Server.step s a) !! id = None /\
          Server.written id s a = []) as [Hnone' Hw].
  { destruct a as [id' conn|id' conn|id' e]; simpl in *.
    - apply negb_true_iff, bool_decide_eq_false in Ha.
      unfold Server.getStatus. rewrite bool_decide_eq_false_2 by done.
      destruct (Js.nonempty id'); simpl; [|done].
      by rewrite lookup_insert_ne.
    - split; [|done]. destruct (decide (id' = id)) as [->|Hne].
      + apply lookup_delete_eq.
      + by rewrite lookup_delete_ne.
    - unfold Server.sendStatusUpdate. case_bool_decide as Hid.
      + subst id'. by rewrite Hnone.
      + destruct (clients s !! id') as [conn|]; [|done].
        destruct (isComplete e); simpl; [|done].
        by rewrite lookup_delete_ne. }
  destruct (IH _ Hnone' Hacts) as [Hc Hd].
  split; [done|]. by rewrite Hd, step_delivered, Hw, app_nil_r.
Qed.




(** C5, as the specification states it, fails: on a server that has started
    no run at all, a subscriber asking for an identifier is registered as
    the live subscriber and sent a greeting that is not terminal. *)
Lemma unknown_identifier_is_registered :
  let r := Server.getStatus "no-such-run" 7 Server.initial in
  started Server.initial = [] /\
  r.1 = EventStream /\
  clients r.2 !! "no-such-run" = Some 7%nat /\
  Server.delivered "no-such-run" r.2 = [Server.greeting] /\
  isComplete Server.greeting = false /\
  ended r.2 = [].
Proof. by vm_compute. Qed.

(** C5, amended: subscribing fails only for an empty identifier; for every
    other identifier, whether or not a run was started for it, the caller
    is registered as the subscriber of the identifier and is sent one
    greeting, which is not terminal; the runs started are not consulted and
    stay as they are. *)
Theorem subscribe_registers (id : string) (conn : nat) (s : Server) :
  id <> "" ->
  let r := Server.getStatus id conn s in
  r.1 = EventStream /\
  clients r.2 !! id = Some conn /\
  Server.delivered id r.2 = Server.delivered id s ++ [Server.greeting] /\
  isComplete Server.greeting = false /\
  ended r.2 = ended s /\
  started r.2 = started s /\
  Server.getStatus "" conn s = (BadRequest "Missing deployment ID", s).
Proof.
  intros Hid r. subst r. unfold Server.getStatus.
  destruct id as [|c id]; [done|]. simpl.
  repeat split; try done.
  - apply lookup_insert_eq.
  - unfold Server.delivered. simpl.
    erewrite delivered_snoc by reflexivity. simpl.
    by rewrite bool_decide_eq_true_2.
Qed.

Lemma subscribe_registers_witness :
  clients (Server.getStatus "no-such-run" 7 Server.initial).2 !! "no-such-run"
    = Some 7%nat.
Proof.
  refine (proj1 (proj2 (subscribe_registers "no-such-run" 7 Server.initial _))).
  discriminate.
Defined.

(** C6, as the specification states it, fails: an organization name of
    three spaces is empty after trimming, and the request is accepted, a
    run is started for it, and the run goes on to spawn commands. *)
Lemma blank_organization_accepted :
  Js.trim "   " = "" /\
  Server.postDeploy Scenario.blank "dep-1" Server.initial =
    (Accepted "dep-1",
     {| clients := ∅; wire := []; ended := [];
        started := [("dep-1", Scenario.blank)] |}) /\
  head (spawned (startDeployment Scenario.happy Scenario.blank "dep-1"
                   (Run.initial ∅)).2) =
    Some ["flyctl"; "apps"; "create"; "----1000"; "--org"; "personal"].
Proof. by vm_compute. Qed.

(** C6, amended: a request is refused with the validation error, leaving
    the server as it was (no registration, no run started), exactly when a
    required field is falsy: absent, [null], [false], [0] or the empty
    string.  It is accepted, starting one run and creating no registration,
    exactly when both fields are truthy; a string field is truthy exactly
    when it is not the empty string, without any trimming. *)
Theorem submit_validation (formData : FormData) (uuid : string) (s : Server) :
  (Server.postDeploy formData uuid s =
     (BadRequest "Missing required form fields (Organization Name, Gemini Key).", s)
   <-> Value.truthy (orgName formData) = false
       \/ Value.truthy (geminiKey formData) = false) /\
  (Server.postDeploy formData uuid s =
     (Accepted uuid,
      {| clients := clients s; wire := wire s; ended := ended s;
         started := started s ++ [(uuid, formData)] |})
   <-> Value.truthy (orgName formData) = true
       /\ Value.truthy (geminiKey formData) = true) /\
  (forall x, Value.truthy (VStr x) = true <-> x <> "").
Proof.
  unfold Server.postDeploy.
  destruct (Value.truthy (orgName formData)),
    (Value.truthy (geminiKey formData)); simpl;
    (split; [|split]); try (split; intros; intuition congruence);
    intros [|c x]; simpl; split; congruence.
Qed.

(** * Further properties of the deployment logic *)

(** How a run completes, from how its [try] block does. *)
Lemma run_completion (w : World) (formData : FormData) (deploymentId : string)
    (fs : gmap string string) :
  let t := try_block w formData deploymentId (Run.initial fs) in
  (startDeployment w formData deploymentId (Run.initial fs)).1 =
  match t.1 with
  | Normal _ => Normal tt
  | Throw msg => (catch_block w msg t.2).1
  | Stalled => Stalled
  end.
Proof.
  intros t. rewrite startDeployment_blocks. unfold finally, try_catch. fold t.
  destruct t as [[[]|msg|] st1]; simpl; [| |done].
  - destruct (finally_block_spec w deploymentId st1) as (Hc & _).
    by destruct (finally_block w deploymentId st1) as [[[]|m|] st2];
      simpl in *.
  - destruct (catch_block w msg st1) as [[[]|m|] st2]; simpl; [| |done];
      destruct (finally_block_spec w deploymentId st2) as (Hc & _);
      by destruct (finally_block w deploymentId st2) as [[[]|m'|] st3];
        simpl in *.
Qed.


(** X2: a run that ends has published exactly one event with
    [isComplete = true], and has ended normally. *)
Theorem ended_run_one_terminal (w : World) (formData : FormData)
    (deploymentId : string) (fs : gmap string string) :
  let r := startDeployment w formData deploymentId (Run.initial fs) in
  r.1 <> Stalled ->
  r.1 = Normal tt /\ completions (events r.2) = 1%nat.
Proof.
  intros r Hends.
  destruct (run_shape w formData deploymentId fs) as (Hc & He & _).
  destruct (try_block_events w formData deploymentId fs) as (Ht & _).
  pose proof (run_completion w formData deploymentId fs) as Hr.
  fold r in Hc, He, Hr. simpl in Hr.
  split.
  { destruct r.1 as [[]|m|]; try done. by destruct (Hc m). }
  rewrite He, completions_app.
  destruct (try_block w formData deploymentId (Run.initial fs))
    as [[[]|msg|] st1]; simpl in *.
  - destruct Ht as (s & pre & _ & -> & Hpre).
    rewrite completions_app, (plain_not_complete _ Hpre). reflexivity.
  - rewrite (plain_not_complete _ Ht).
    change (failed_event msg :: cleanup_events w (uniqueAppName st1))
      with ([failed_event msg] ++ cleanup_events w (uniqueAppName st1)).
    rewrite completions_app,
      (plain_not_complete _ (cleanup_events_plain w _)).
    reflexivity.
  - by rewrite Hr in Hends.
Qed.

Lemma ended_run_one_terminal_witness :
  completions
    (events (startDeployment Scenario.create_fails Scenario.acme "dep-1"
               (Run.initial ∅)).2) = 1%nat.
Proof.
  refine (proj2 (ended_run_one_terminal Scenario.create_fails Scenario.acme
                   "dep-1" ∅ _)).
  discriminate.
Defined.

(** X4: an organization name that is not a string (a number, [true], an
    array or an object passes the validation of the route) makes the run
    fail at once: it publishes the first progress event and the event of
    the failure, records no name, spawns no command at all, and leaves the
    file system alone. *)
Theorem non_string_orgName_fails_cleanly (w : World) (formData : FormData)
    (deploymentId : string) (fs : gmap string string) :
  (forall s, orgName formData <> VStr s) ->
  let r := startDeployment w formData deploymentId (Run.initial fs) in
  r.1 = Normal tt /\
  (exists msg,
     events r.2 =
       [info "Generating unique application name..."; failed_event msg]) /\
  spawned r.2 = [] /\ files r.2 = fs /\ warnings r.2 = [] /\
  uniqueAppName r.2 = "".
Proof.
  intros Hns r. subst r. destruct formData as [o k]. simpl in Hns.
  destruct o as [| |b|n|s|l|l]; try (by destruct (Hns s));
    (repeat split; [eexists; reflexivity]).
Qed.

Lemma non_string_orgName_fails_cleanly_witness :
  Value.truthy (VNum 5) = true /\
  spawned (startDeployment Scenario.happy
             {| orgName := VNum 5; geminiKey := VStr "k" |} "dep-1"
             (Run.initial ∅)).2 = [].
Proof.
  split; [reflexivity|].
  refine (proj1 (proj2 (proj2 (non_string_orgName_fails_cleanly Scenario.happy
    {| orgName := VNum 5; geminiKey := VStr "k" |} "dep-1" ∅ _)))).
  discriminate.
Defined.



(** ** The commands of a run *)

#[global] Instance same_spawned_preorder : PreOrder same_spawned.
Proof.
  split; unfold same_spawned; [by intros st | intros st1 st2 st3; congruence].
Qed.










(** The token the identity steps hand on is never empty. *)
Lemma setupToken_truthy (w : World) (newUserId : value) (tokenId : string)
    (st st' : RunState) (token : value) :
  setupToken w newUserId tokenId st = (Normal token, st') ->
  Value.truthy token = true.
Proof.
  unfold setupToken, try_catch, await_fetch, await_json, sendStatusUpdate,
    throw, mbind, M_bind, mret, M_ret.
  simpl. destruct (fetch w _ _) as [msg|r|]; simpl; try done.
  destruct (ok r); simpl; [|by destruct (status r =? 409)].
  destruct (json r) as [msg|tokenData]; simpl; [done|].
  destruct (Value.truthy tokenData); simpl; [|done].
  destruct (Value.truthy (Value.field "token" tokenData)) eqn:Htok; simpl;
    [|done].
  by intros [= <- _].
Qed.







(** ** The file system *)

#[global] Instance same_store_preorder : PreOrder same_store.
Proof.
  split; unfold same_store; [by intros st|].
  intros st1 st2 st3 [? ?] [? ?]. split; congruence.
Qed.

Lemma same_store_sendStatusUpdate (e : ProgressEvent) :
  preserves same_store (sendStatusUpdate e).
Proof. by intros st. Qed.

Lemma same_store_set_uniqueAppName (name : string) :
  preserves same_store (set_uniqueAppName name).
Proof. by intros st. Qed.

Lemma same_store_runCommand (w : World) (command : string) (args : list string) :
  preserves same_store (runCommand w command args).
Proof.
  intros st. destruct (runCommand_state w command args st)
    as (_ & _ & Hf & _ & _ & Hp). by split.
Qed.

Ltac same_store_step :=
  first
    [ structural_step same_store
    | apply same_store_sendStatusUpdate
    | apply same_store_set_uniqueAppName
    | apply same_store_runCommand ].

Lemma same_store_generateName (w : World) (formData : FormData) :
  preserves same_store (generateName w formData).
Proof.
  unfold generateName, orgName_toLowerCase. repeat same_store_step.
Qed.

Lemma same_store_setupHumanitec (w : World) (name : string) :
  preserves same_store (setupHumanitec w name).
Proof.
  unfold setupHumanitec, setupUser, setupToken, users_lack_id.
  repeat same_store_step.
Qed.

Lemma same_store_setSecrets (w : World) (name : string)
    (entries : list (string * value)) :
  preserves same_store (setSecrets w name entries).
Proof.
  induction entries as [|[key v] rest IH]; simpl.
  - apply (preserves_ret same_store).
  - repeat first [exact IH | same_store_step].
Qed.

#[local] Arguments runCommand : simpl never.
#[local] Arguments setSecrets : simpl never.
#[local] Arguments writeFile : simpl never.

Lemma temp_path_nonempty (w : World) (deploymentId name : string) :
  temp_path w deploymentId name <> "".
Proof. unfold temp_path, tmp_join. by destruct (tmpdir w). Qed.

Lemma agree_off_refl (p : string) (fs : gmap string string) : agree_off p fs fs.
Proof. by intros p'. Qed.

Lemma agree_off_insert (p c : string) (fs fs' : gmap string string) :
  agree_off p fs fs' -> agree_off p fs (<[p := c]> fs').
Proof. intros H p' Hp'. rewrite lookup_insert_ne by done. by apply H. Qed.

Lemma agree_off_delete (p : string) (fs fs' : gmap string string) :
  agree_off p fs fs' -> agree_off p fs (delete p fs').
Proof. intros H p' Hp'. rewrite lookup_delete_ne by done. by apply H. Qed.

(** The steps on the platform either leave the store as it is, or record
    the path of the temporary file and touch the file system at that path
    only. *)
Lemma deployToFly_store (w : World) (formData : FormData)
    (deploymentId name : string) (newUserToken : value) (st : RunState) :
  let r := deployToFly w formData deploymentId name newUserToken st in
  same_store st r.2 \/
  (tempFlyTomlPath r.2 = temp_path w deploymentId name /\
   agree_off (temp_path w deploymentId name) (files st) (files r.2)).
Proof.
  unfold deployToFly, temp_path. cbv zeta.
  unfold mbind, M_bind, sendStatusUpdate, set_tempFlyTomlPath. simpl.
  match goal with
  | |- context [runCommand w "flyctl" ?a ?s] =>
      pose proof (same_store_runCommand w "flyctl" a s) as [Hf1 Hp1];
      destruct (runCommand w "flyctl" a s) as [[r1|m1|] s1]
  end; simpl in *; [|left; by split..].
  match goal with
  | |- context [setSecrets w name ?e ?s] =>
      pose proof (same_store_setSecrets w name e s) as [Hf2 Hp2];
      destruct (setSecrets w name e s) as [[[]|m2|] s2]
  end; simpl in *; [|left; split; congruence..].
  right. unfold writeFile. simpl.
  destruct (write_fault w) as [[m3 []]|]; simpl.
  - split; [done|]. apply agree_off_insert. intros p' _. congruence.
  - split; [done|]. intros p' _. simpl. congruence.
  - match goal with
    | |- context [runCommand w "flyctl" ?a ?s] =>
        pose proof (same_store_runCommand w "flyctl" a s) as [Hf4 Hp4];
        destruct (runCommand w "flyctl" a s) as [[r4|m4|] s4]
    end; simpl in *;
      (split; [done|]); rewrite Hf4;
      apply agree_off_insert; intros p' _; congruence.
Qed.

Lemma try_block_store (w : World) (formData : FormData) (deploymentId : string)
    (fs : gmap string string) :
  let t := try_block w formData deploymentId (Run.initial fs) in
  (files t.2 = fs /\ tempFlyTomlPath t.2 = "") \/
  (tempFlyTomlPath t.2 <> "" /\ agree_off (tempFlyTomlPath t.2) fs (files t.2)).
Proof.
  intros t. subst t. rewrite try_block_cases.
  assert (forall c st1,
            provision w formData deploymentId (Run.initial fs) = (c, st1) ->
            (files st1 = fs /\ tempFlyTomlPath st1 = "") \/
            (tempFlyTomlPath st1 <> "" /\
             agree_off (tempFlyTomlPath st1) fs (files st1))) as Hprov.
  { intros c st1. unfold provision. unfold mbind at 1, M_bind at 1.
    pose proof (same_store_generateName w formData (Run.initial fs)) as [Hf Hp].
    destruct (generateName w formData (Run.initial fs)) as [[n|m|] sa];
      simpl in *; [|intros [= _ <-]; by left..].
    unfold mbind at 1, M_bind at 1.
    pose proof (same_store_setupHumanitec w n sa) as [Hf' Hp'].
    destruct (setupHumanitec w n sa) as [[tok|m|] sb]; simpl in *;
      [|intros [= _ <-]; left; split; congruence..].
    unfold mbind, M_bind.
    pose proof (temp_path_nonempty w deploymentId n) as Hne.
    destruct (deployToFly_store w formData deploymentId n tok sb)
      as [[Hf'' Hp'']|[Hp'' Ha]];
      destruct (deployToFly w formData deploymentId n tok sb)
        as [[[]|m|] sc]; simpl in *; intros [= _ <-];
      first [ left; split; congruence
            | right; rewrite Hp''; split; [done|];
              intros p' Hp'ne; rewrite (Ha p' Hp'ne); congruence ]. }
  destruct (provision w formData deploymentId (Run.initial fs))
    as [[name|msg|] st1] eqn:Hp; simpl; by eapply Hprov.
Qed.

(** X8: a run never touches a file other than its temporary file: at every
    path but the one it recorded, the file system after the run, however
    it went, holds what it held before; and a run that recorded no path
    has left the file system exactly as it was. *)
Theorem run_leaves_other_files_alone (w : World) (formData : FormData)
    (deploymentId : string) (fs : gmap string string) :
  let r := startDeployment w formData deploymentId (Run.initial fs) in
  (forall p, p <> tempFlyTomlPath r.2 -> files r.2 !! p = fs !! p) /\
  (tempFlyTomlPath r.2 = "" -> files r.2 = fs).
Proof.
  intros r. subst r. rewrite startDeployment_blocks.
  assert (let c := try_catch (try_block w formData deploymentId)
                     (catch_block w) (Run.initial fs) in
          (files c.2 = fs /\ tempFlyTomlPath c.2 = "") \/
          (tempFlyTomlPath c.2 <> "" /\
           agree_off (tempFlyTomlPath c.2) fs (files c.2))) as Hc.
  { unfold try_catch.
    pose proof (try_block_store w formData deploymentId fs) as Ht.
    destruct (try_block w formData deploymentId (Run.initial fs))
      as [[[]|msg|] st1]; simpl in *; try done.
    destruct (catch_block_spec w msg st1) as (_ & _ & _ & Hf & _ & _ & Hp).
    by rewrite Hf, Hp. }
  simpl in Hc. unfold finally.
  destruct (try_catch (try_block w formData deploymentId) (catch_block w)
              (Run.initial fs)) as [c st1]. simpl in Hc.
  assert (let f := finally_block w deploymentId st1 in
          tempFlyTomlPath f.2 = tempFlyTomlPath st1 /\
          (tempFlyTomlPath st1 = "" -> files f.2 = files st1) /\
          agree_off (tempFlyTomlPath st1) (files st1) (files f.2)) as Hfin.
  { unfold finally_block, get_tempFlyTomlPath, try_catch, unlink,
      console_error, mbind, M_bind, mret, M_ret. simpl.
    destruct (tempFlyTomlPath st1) as [|ch path] eqn:Hpath; simpl.
    - repeat split; auto; apply agree_off_refl.
    - destruct (files st1 !! String ch path); simpl;
        [destruct (unlink_fault w); simpl|];
        repeat split; try done; try apply agree_off_refl.
      apply agree_off_delete, agree_off_refl. }
  simpl in Hfin. destruct Hfin as (Hp & Hsame & Hoff).
  assert (forall st2,
            tempFlyTomlPath st2 = tempFlyTomlPath st1 ->
            (tempFlyTomlPath st1 = "" -> files st2 = files st1) ->
            agree_off (tempFlyTomlPath st1) (files st1) (files st2) ->
            (forall p, p <> tempFlyTomlPath st2 -> files st2 !! p = fs !! p) /\
            (tempFlyTomlPath st2 = "" -> files st2 = fs)) as Hgoal.
  { intros st2 Hp2 Hsame2 Hoff2. rewrite Hp2.
    destruct Hc as [[Hf0 Hp0]|[Hne Ha]].
    - rewrite Hp0 in *. rewrite (Hsame2 eq_refl), Hf0. by split.
    - split; [|done].
      intros p Hp'. rewrite (Hoff2 p Hp'). by apply Ha. }
  destruct c as [[]|msg|]; simpl.
  - destruct (finally_block w deploymentId st1) as [[[]|m|] st2];
      simpl in *; by apply Hgoal.
  - destruct (finally_block w deploymentId st1) as [[[]|m|] st2];
      simpl in *; by apply Hgoal.
  - apply Hgoal; try done; apply agree_off_refl.
Qed.

(** * Further properties of the progress channel *)

Lemma exec_cons (a : Server.Action) (acts : list Server.Action) (s : Server) :
  Server.exec (a :: acts) s = Server.exec acts (Server.step s a).
Proof. reflexivity. Qed.

(** An action about another identifier neither changes the registration of
    [id] nor writes anything for it. *)
Lemma step_other (id : string) (a : Server.Action) (s : Server) :
  about a <> id ->
  clients (Server.step s a) !! id = clients s !! id /\
  Server.written id s a = [].
Proof.
  destruct a as [id' conn|id' conn|id' e]; simpl; intros Hne.
  - unfold Server.getStatus. rewrite bool_decide_eq_false_2 by done.
    destruct (Js.nonempty id'); simpl; [|done].
    by rewrite lookup_insert_ne.
  - by rewrite lookup_delete_ne.
  - rewrite bool_decide_eq_false_2 by done. split; [|done].
    unfold Server.sendStatusUpdate.
    destruct (clients s !! id') as [conn|]; [|done].
    destruct (isComplete e); simpl; [|done]. by rewrite lookup_delete_ne.
Qed.

(** An action about [id] acts the same on two servers that agree on the
    registration of [id]. *)
Lemma step_same (id : string) (a : Server.Action) (s1 s2 : Server) :
  about a = id ->
  clients s1 !! id = clients s2 !! id ->
  clients (Server.step s1 a) !! id = clients (Server.step s2 a) !! id /\
  Server.written id s1 a = Server.written id s2 a.
Proof.
  destruct a as [id' conn|id' conn|id' e]; simpl; intros -> Hagree.
  - unfold Server.getStatus. destruct (Js.nonempty id); simpl; [|done].
    by rewrite !lookup_insert_eq.
  - by rewrite !lookup_delete_eq.
  - rewrite Hagree. split; [|done]. unfold Server.sendStatusUpdate.
    rewrite Hagree. destruct (clients s2 !! id) as [conn|] eqn:Hreg;
      [|congruence].
    destruct (isComplete e); simpl; [|congruence].
    by rewrite !lookup_delete_eq.
Qed.

Lemma isolation_gen (id : string) (acts : list Server.Action) (s1 s2 : Server) :
  clients s1 !! id = clients s2 !! id ->
  exists d,
    Server.delivered id (Server.exec acts s1) = Server.delivered id s1 ++ d /\
    Server.delivered id
      (Server.exec (filter (fun a => about a = id) acts) s2) =
      Server.delivered id s2 ++ d /\
    clients (Server.exec acts s1) !! id =
      clients (Server.exec (filter (fun a => about a = id) acts) s2) !! id.
Proof.
  revert s1 s2. induction acts as [|a acts IH]; intros s1 s2 Hagree.
  { exists []. by rewrite !app_nil_r. }
  rewrite exec_cons. destruct (decide (about a = id)) as [Ha|Ha].
  - rewrite filter_cons_True by done. rewrite exec_cons.
    destruct (step_same id a s1 s2 Ha Hagree) as [Hagree' Hw].
    destruct (IH _ _ Hagree') as (d & H1 & H2 & H3).
    exists (Server.written id s1 a ++ d).
    rewrite H1, H2, !step_delivered, Hw, <- !app_assoc. done.
  - rewrite filter_cons_False by done.
    destruct (step_other id a s1 Ha) as [Hsame Hw].
    rewrite <- Hsame in Hagree.
    destruct (IH _ _ Hagree) as (d & H1 & H2 & H3).
    exists d. by rewrite H1, step_delivered, Hw, app_nil_r.
Qed.

(** X9: there is no cross-talk between identifiers: what is delivered for
    an identifier, and who is registered for it, is determined by the
    actions about that identifier alone; connections, disconnections and
    publications for other identifiers can be left out without changing
    either. *)
Theorem channel_isolation (id : string) (acts : list Server.Action) (s : Server) :
  Server.delivered id (Server.exec acts s) =
    Server.delivered id (Server.exec (filter (fun a => about a = id) acts) s) /\
  clients (Server.exec acts s) !! id =
    clients (Server.exec (filter (fun a => about a = id) acts) s) !! id.
Proof.
  destruct (isolation_gen id acts s s eq_refl) as (d & H1 & H2 & H3).
  split; [congruence | done].
Qed.

Lemma rewires_connects (id : string) (acts : list Server.Action) :
  forallb (fun a => negb (rewires id a)) acts = true ->
  forallb (fun a => negb (Server.connects id a)) acts = true.
Proof.
  induction acts as [|a acts IH]; [done|]. simpl.
  intros [Ha Hacts]%andb_prop. rewrite (IH Hacts), andb_true_r.
  by destruct a.
Qed.

(** While the registration stands, every publication for [id] is written,
    in order, up to the first terminal one. *)
Lemma registered_stream (id : string) (conn : nat) (post : list Server.Action)
    (s : Server) :
  clients s !! id = Some conn ->
  forallb (fun a => negb (rewires id a)) post = true ->
  Server.delivered id (Server.exec post s) =
  Server.delivered id s ++ upto_terminal (Server.published id post).
Proof.
  revert s. induction post as [|a post IH]; intros s Hreg Hpost.
  { by rewrite app_nil_r. }
  simpl in Hpost. apply andb_prop in Hpost as [Ha Hpost].
  rewrite exec_cons. destruct (decide (about a = id)) as [Hid|Hid].
  - destruct a as [id' c|id' c|id' e]; simpl in *; subst id';
      try (by rewrite bool_decide_eq_true_2 in Ha).
    unfold Server.published. simpl. rewrite decide_True by done. simpl.
    fold (Server.published id post).
    destruct (isComplete e) eqn:He.
    + destruct (unregistered_silent id post (Server.sendStatusUpdate id e s))
        as [_ ->]; [by apply publish_complete_unregisters
                   | by apply rewires_connects |].
      change (Server.sendStatusUpdate id e s)
        with (Server.step s (Server.Publish id e)).
      rewrite step_delivered. simpl.
      by rewrite bool_decide_eq_true_2, Hreg.
    + rewrite IH; [|unfold Server.sendStatusUpdate; by rewrite Hreg, He|done].
      change (Server.sendStatusUpdate id e s)
        with (Server.step s (Server.Publish id e)).
      rewrite step_delivered. simpl.
      by rewrite bool_decide_eq_true_2, Hreg, <- app_assoc.
  - destruct (step_other id a s Hid) as [Hsame Hw].
    rewrite IH; [|by rewrite Hsame|done].
    rewrite step_delivered, Hw, app_nil_r. f_equal. f_equal.
    unfold Server.published. simpl.
    destruct a as [id' c|id' c|id' e]; simpl in *; try done.
    by rewrite decide_False.
Qed.

(** X10: the stream of a subscriber.  From the moment a subscriber connects
    for a non-empty identifier, and for as long as no connection for that
    identifier is opened or closed, it is sent the greeting and then every
    event published for the identifier, in the order of publication and
    without omission, up to and including the first terminal event, and
    nothing after that.  Nothing published before it connected is sent to
    it. *)
Theorem subscriber_stream (id : string) (conn : nat)
    (post : list Server.Action) (s : Server) :
  id <> "" ->
  forallb (fun a => negb (rewires id a)) post = true ->
  Server.delivered id (Server.exec (Server.Connect id conn :: post) s) =
  Server.delivered id s
    ++ Server.greeting :: upto_terminal (Server.published id post).
Proof.
  intros Hid Hpost. rewrite exec_cons.
  rewrite (registered_stream id conn); [|simpl|done].
  - rewrite step_delivered. simpl.
    rewrite bool_decide_eq_true_2 by done.
    destruct id; [done|]. simpl. by rewrite <- app_assoc.
  - unfold Server.getStatus. destruct id; [done|]. simpl.
    apply lookup_insert_eq.
Qed.

Lemma subscriber_stream_witness :
  Server.delivered "dep-1"
    (Server.exec
       (Server.Connect "dep-1" 1
          :: [Server.Publish "dep-1" (info "a");
              Server.Publish "other" (failed_event "x");
              Server.Publish "dep-1" (failed_event "b");
              Server.Publish "dep-1" (info "c")])
       Server.initial) =
  [Server.greeting; info "a"; failed_event "b"].
Proof.
  exact (subscriber_stream "dep-1" 1
           [Server.Publish "dep-1" (info "a");
            Server.Publish "other" (failed_event "x");
            Server.Publish "dep-1" (failed_event "b");
            Server.Publish "dep-1" (info "c")]
           Server.initial ltac:(discriminate) eq_refl).
Defined.

(** X11: the [close] handler removes the registration of its identifier
    whichever connection holds it.  So when a second subscriber has replaced
    the first and the first connection closes afterwards, the second
    subscriber, still connected, is sent nothing more: whatever is published
    from then on is dropped, until someone connects again. *)
Theorem stale_close_silences_subscriber (id : string) (c1 c2 : nat)
    (post : list Server.Action) (s : Server) :
  id <> "" ->
  forallb (fun a => negb (Server.connects id a)) post = true ->
  Server.delivered id
    (Server.exec
       (Server.Connect id c1 :: Server.Connect id c2
          :: Server.Disconnect id c1 :: post) s) =
  Server.delivered id s ++ [Server.greeting; Server.greeting].
Proof.
  intros Hid Hpost. rewrite !exec_cons.
  destruct (unregistered_silent id post
              (Server.step
                 (Server.step (Server.step s (Server.Connect id c1))
                    (Server.Connect id c2))
                 (Server.Disconnect id c1))) as [_ ->]; [|done|].
  - simpl. apply lookup_delete_eq.
  - rewrite !step_delivered. simpl.
    rewrite bool_decide_eq_true_2 by done.
    destruct id; [done|]. simpl. by rewrite !app_nil_r, <- app_assoc.
Qed.

Lemma stale_close_silences_subscriber_witness :
  Server.delivered "dep-1"
    (Server.exec
       (Server.Connect "dep-1" 1 :: Server.Connect "dep-1" 2
          :: Server.Disconnect "dep-1" 1
          :: [Server.Publish "dep-1" (info "a")])
       Server.initial) =
  [Server.greeting; Server.greeting].
Proof.
  exact (stale_close_silences_subscriber "dep-1" 1 2
           [Server.Publish "dep-1" (info "a")] Server.initial
           ltac:(discriminate) eq_refl).
Defined.

(** X12: a newer connection takes over.  Once a subscriber has connected
    for a non-empty identifier, nothing more is written for that identifier
    to any other response object for as long as no one else connects for
    it: the earlier subscriber is sent nothing from then on. *)
Theorem latest_connection_only (id : string) (c1 c2 : nat)
    (post : list Server.Action) (s : Server) :
  id <> "" ->
  c1 <> c2 ->
  forallb (fun a => negb (Server.connects id a)) post = true ->
  written_to id c1 (Server.exec (Server.Connect id c2 :: post) s) =
  written_to id c1 s.
Proof.
  intros Hid Hc Hpost. rewrite exec_cons.
  assert (forall s',
            (clients s' !! id = None \/ clients s' !! id = Some c2) ->
            written_to id c1 (Server.exec post s') = written_to id c1 s')
    as Hkeep.
  { clear s. induction post as [|a post IH]; intros s Hreg; [done|].
    simpl in Hpost. apply andb_prop in Hpost as [Ha Hpost].
    rewrite exec_cons, (IH Hpost).
    - unfold written_to.
      destruct a as [id' c|id' c|id' e]; simpl; try done.
      + unfold Server.getStatus. destruct (Js.nonempty id'); simpl; [|done].
        rewrite filter_app, filter_cons_False, app_nil_r; [done|].
        simpl. intros [Heq _]. simpl in Ha.
        by rewrite (bool_decide_eq_true_2 _ Heq) in Ha.
      + unfold Server.sendStatusUpdate.
        destruct (clients s !! id') as [c|] eqn:Hc'; [|done].
        assert (~ (id' = id /\ c = c1)) as Hno.
        { intros [-> ->]. destruct Hreg; congruence. }
        destruct (isComplete e); simpl;
          by rewrite filter_app, filter_cons_False, app_nil_r.
    - destruct a as [id' c|id' c|id' e]; simpl in *.
      + apply negb_true_iff, bool_decide_eq_false in Ha.
        unfold Server.getStatus. destruct (Js.nonempty id'); simpl; [|done].
        by rewrite lookup_insert_ne.
      + destruct (decide (id' = id)) as [->|Hne].
        * left. apply lookup_delete_eq.
        * by rewrite lookup_delete_ne.
      + unfold Server.sendStatusUpdate.
        destruct (clients s !! id') as [c|] eqn:Hc'; [|done].
        destruct (isComplete e); simpl; [|done].
        destruct (decide (id' = id)) as [->|Hne].
        * left. apply lookup_delete_eq.
        * by rewrite lookup_delete_ne. }
  simpl. unfold Server.getStatus.
  destruct id as [|ch id]; [done|]. simpl. rewrite Hkeep.
  - unfold written_to. simpl.
    rewrite filter_app, filter_cons_False, app_nil_r; [done|].
    simpl. intros [_ ?]. congruence.
  - right. apply lookup_insert_eq.
Qed.

Lemma latest_connection_only_witness :
  written_to "dep-1" 1
    (Server.exec
       (Server.Connect "dep-1" 2 :: [Server.Publish "dep-1" (info "a")])
       (Server.exec [Server.Connect "dep-1" 1] Server.initial)) =
  [Server.greeting].
Proof.
  exact (latest_connection_only "dep-1" 1 2
           [Server.Publish "dep-1" (info "a")]
           (Server.exec [Server.Connect "dep-1" 1] Server.initial)
           ltac:(discriminate) ltac:(discriminate) eq_refl).
Defined.

(** * Further properties of the command execution wrapper *)

Lemma handle_accumulators (cs : string) (ev : ChildEvent) (c : Child) :
  stdoutData (handle cs ev c) =
    stdoutData c +:+ concat_strings (option_list (stdout_line ev)) /\
  stderrData (handle cs ev c) =
    stderrData c +:+ concat_strings (option_list (stderr_line ev)).
Proof.
  destruct ev as [chunk|chunk|msg|[[| |]|]]; simpl;
    try destruct (Js.nonempty (Js.trim chunk)); simpl;
    by rewrite ?append_empty_r.
Qed.

Lemma concat_strings_app (l l' : list string) :
  concat_strings (l ++ l') = concat_strings l +:+ concat_strings l'.
Proof.
  induction l as [|x l IH]; simpl; [done|]. by rewrite IH, append_assoc.
Qed.

Lemma omap_cons_app {A B} (f : A -> option B) (x : A) (l : list A) :
  omap f (x :: l) = option_list (f x) ++ omap f l.
Proof. simpl. by destruct (f x). Qed.

Lemma handle_all_accumulators (cs : string) (evs : list ChildEvent) (c : Child) :
  stdoutData (handle_all cs evs c) =
    stdoutData c +:+ concat_strings (omap stdout_line evs) /\
  stderrData (handle_all cs evs c) =
    stderrData c +:+ concat_strings (omap stderr_line evs).
Proof.
  revert c. induction evs as [|ev evs IH]; intros c.
  { simpl. by rewrite !append_empty_r. }
  rewrite handle_all_cons. destruct (IH (handle cs ev c)) as [-> ->].
  destruct (handle_accumulators cs ev c) as [-> ->].
  by rewrite !omap_cons_app, !concat_strings_app, !append_assoc.
Qed.

Lemma handle_all_resolved (cs : string) (evs : list ChildEvent) (c : Child)
    (r : CommandResult) :
  settled c = None ->
  settled (handle_all cs evs c) = Some (Resolved r) ->
  exists before after,
    evs = before ++ Close (Some 0) :: after /\
    stdout r = stdoutData c +:+ concat_strings (omap stdout_line before) /\
    stderr r = stderrData c +:+ concat_strings (omap stderr_line before) /\
    exitCode r = 0.
Proof.
  revert c. induction evs as [|ev evs IH]; intros c Hpending Hres.
  { simpl in Hres. congruence. }
  rewrite handle_all_cons in Hres.
  destruct (handle_accumulators cs ev c) as [Hout Herr].
  destruct (settled (handle cs ev c)) as [s|] eqn:Hs.
  - rewrite (handle_all_settled_stable cs evs _ s Hs) in Hres.
    injection Hres as ->.
    destruct ev as [chunk|chunk|msg|[[| |]|]]; simpl in Hs;
      try (destruct (Js.nonempty (Js.trim chunk)); simpl in Hs);
      rewrite ?Hpending in Hs; try done.
    injection Hs as <-. exists [], evs. simpl.
    by rewrite !append_empty_r.
  - destruct (IH _ Hs Hres) as (before & after & -> & Ho & He & Hx).
    exists (ev :: before), after. split; [done|].
    rewrite Ho, He, Hout, Herr.
    by rewrite !omap_cons_app, !concat_strings_app, !append_assoc.
Qed.

(** X13: what the wrapper accumulates.  Whatever the child does, the
    accumulated stdout is the trimmed text of the stdout chunks that are not
    all white space, each followed by one newline, in the order they came,
    and likewise for stderr; chunks of one stream never reach the other.
    When the promise resolves, its result holds exactly what was accumulated
    from the chunks that came before the first [close] with exit code zero,
    and its exit code is zero. *)
Theorem accumulated_output (command : string) (args : list string)
    (evs : list ChildEvent) :
  let c := run_child command args evs in
  stdoutData c = concat_strings (omap stdout_line evs) /\
  stderrData c = concat_strings (omap stderr_line evs) /\
  (forall r,
     settled c = Some (Resolved r) ->
     exists before after,
       evs = before ++ Close (Some 0) :: after /\
       stdout r = concat_strings (omap stdout_line before) /\
       stderr r = concat_strings (omap stderr_line before) /\
       exitCode r = 0).
Proof.
  intros c. subst c. unfold run_child.
  destruct (handle_all_accumulators (commandString command args) evs
              (Child.emit
                 (info ("Executing: " +:+ commandString command args +:+ "..."))
                 Child.start)) as [Ho He].
  split; [exact Ho|]. split; [exact He|].
  intros r Hr. by apply handle_all_resolved in Hr.
Qed.

(** * Further properties of the name derivation *)

Lemma name_unit_facts (c : ascii) :
  Js.is_name_unit c = true ->
  is_unreserved c = true /\ Js.lower_unit c = c.
Proof.
  destruct c as [[] [] [] [] [] [] [] []]; vm_compute; intros H;
    by try discriminate H.
Qed.




Lemma encodeURIComponent_unreserved (s : string) :
  Js.all_units is_unreserved s = true -> encodeURIComponent s = s.
Proof.
  induction s as [|c s IH]; simpl; [done|].
  intros [Hc Hs]%andb_prop. by rewrite Hc, (IH Hs).
Qed.


(** X15: [encodeURIComponent] leaves a string of [a-z0-9-] as it is, so the
    lookup by name asks for the service user name of the derived
    application name verbatim, with nothing percent-encoded. *)
Theorem lookup_name_verbatim (orgName : string) (seed : Z) :
  (forall s, Js.all_units Js.is_name_unit s = true -> encodeURIComponent s = s) /\
  encodeURIComponent ("canyon-chat-fly-" +:+ deriveAppName orgName seed) =
    "canyon-chat-fly-" +:+ deriveAppName orgName seed.
Proof.
  assert (forall s, Js.all_units Js.is_name_unit s = true ->
                    encodeURIComponent s = s) as Hid.
  { intros s Hs. apply encodeURIComponent_unreserved.
    eapply all_units_impl; [|exact Hs].
    intros c Hc. apply (name_unit_facts c Hc). }
  split; [exact Hid|]. apply Hid.
  rewrite all_units_append.
  by rewrite (proj2 (deriveAppName_bounded orgName seed)).
Qed.

(** * Further properties of the identity steps *)

Lemma users_lack_id_false (users : value) (st st' : RunState) :
  users_lack_id users st = (Normal false, st') ->
  Value.truthy (Value.field "id" (Value.first users)) = true.
Proof.
  unfold users_lack_id, throw, mret, M_ret.
  destruct (Value.truthy users); simpl; [|done].
  destruct (Value.is_zero (Value.length_of users)); simpl; [done|].
  destruct (Value.first users); simpl; try done;
    intros [= Hid _]; by apply negb_false_iff in Hid.
Qed.

Lemma setupUser_truthy (w : World) (serviceUserName : string)
    (st st' : RunState) (id : value) :
  setupUser w serviceUserName st = (Normal id, st') ->
  Value.truthy id = true.
Proof.
  unfold setupUser, try_catch, await_fetch, await_json, sendStatusUpdate,
    throw, mbind, M_bind, mret, M_ret.
  simpl. destruct (fetch w "POST" _) as [msg|r|]; simpl; try done.
  destruct (ok r); simpl.
  - destruct (json r) as [msg|newUser]; simpl; [done|].
    destruct (Value.truthy newUser); simpl; [|done].
    destruct (Value.truthy (Value.field "id" newUser)) eqn:Hid; simpl;
      [|done].
    by intros [= <- _].
  - destruct (status r =? 409); simpl; [|done].
    destruct (fetch w "GET" _) as [msg|r'|]; simpl; try done.
    destruct (ok r'); simpl; [|done].
    destruct (json r') as [msg|users]; simpl; [done|].
    destruct (users_lack_id users _) as [[[]|msg|] st1] eqn:Hlack; simpl;
      try done.
    intros [= <- _]. by eapply users_lack_id_false.
Qed.

(** X16: the identity steps never hand on an empty value: whatever the
    service answers, a user identifier that [setupUser] returns and a token
    that [setupToken] returns are truthy (not [undefined], [null], [false],
    [0] or the empty string); every other answer ends in an error. *)
Theorem identity_results_truthy (w : World) (name tokenId : string)
    (userId : value) (st : RunState) :
  (forall id st', setupUser w name st = (Normal id, st') ->
                  Value.truthy id = true) /\
  (forall token st', setupToken w userId tokenId st = (Normal token, st') ->
                     Value.truthy token = true).
Proof.
  split.
  - intros id st'. apply setupUser_truthy.
  - intros token st'. apply setupToken_truthy.
Qed.

(** X17: when creating the service user answers 409 and the lookup by name
    answers with a list whose first entry is an object with a truthy [id],
    [setupUser] returns that identifier and publishes the two notes of the
    conflict path; the state of the run is otherwise untouched. *)
Theorem conflict_uses_existing_user (w : World) (name : string) (st : RunState)
    (r1 r2 : Response) (props : list (string * value)) (others : list value) :
  fetch w "POST"
    ("https://api.humanitec.io/orgs/" +:+ humanitecOrgId +:+ "/users")
    = Responds r1 ->
  status r1 = 409 ->
  fetch w "GET"
    ("https://api.humanitec.io/orgs/" +:+ humanitecOrgId +:+ "/users?name="
       +:+ encodeURIComponent name)
    = Responds r2 ->
  ok r2 = true ->
  json r2 = inr (VArr (VObj props :: others)) ->
  Value.truthy (Value.own "id" props) = true ->
  setupUser w name st =
    (Normal (Value.own "id" props),
     Run.publish
       (info ("Found existing service user ID: "
                +:+ Value.to_string (Value.own "id" props)))
       (Run.publish
          (info ("Service user '" +:+ name
                   +:+ "' already exists. Fetching ID..."))
          st)).
Proof.
  intros H1 Hs1 H2 Hok2 Hj2 Hid.
  unfold setupUser, try_catch, await_fetch, await_json, sendStatusUpdate,
    users_lack_id, throw, mbind, M_bind, mret, M_ret.
  rewrite H1. unfold ok at 1. rewrite Hs1. simpl.
  rewrite H2. simpl. rewrite Hok2. simpl. rewrite Hj2. simpl.
  rewrite Hid. reflexivity.
Qed.

Lemma conflict_uses_existing_user_witness :
  (setupUser Scenario.conflict "canyon-chat-fly-acme-inc--1000"
     (Run.initial ∅)).1 = Normal (VStr "u-7").
Proof.
  exact (f_equal fst
           (conflict_uses_existing_user Scenario.conflict
              "canyon-chat-fly-acme-inc--1000" (Run.initial ∅)
              {| status := 409; text := "conflict"; json := inl "" |}
              {| status := 200; text := "";
                 json := inr (VArr [VObj [("id", VStr "u-7")]]) |}
              [("id", VStr "u-7")] [] eq_refl eq_refl eq_refl eq_refl eq_refl
              eq_refl)).
Defined.

(** * The page, the channel and the run together *)

Lemma receive_app (es es' : list ProgressEvent) (p : App.State) :
  App.receive (es ++ es') p = App.receive es' (App.receive es p).
Proof. apply foldl_app. Qed.

Lemma last_cons_snoc {A} (x y : A) (l : list A) :
  last (x :: l ++ [y]) = Some y.
Proof. apply (last_snoc y (x :: l)). Qed.

Lemma receive_cons (e : ProgressEvent) (es : list ProgressEvent) (p : App.State) :
  App.receive (e :: es) p =
  App.receive es (if App.eventSource_open p then App.onmessage e p else p).
Proof. reflexivity. Qed.

(** Events that are not terminal only add lines to the log. *)
Lemma receive_plain (es : list ProgressEvent) (p : App.State) :
  Forall plain es ->
  App.eventSource_open p = true ->
  App.receive es p =
  {| App.messages := App.messages p ++ (App.line <$> es);
     App.isDeploying := App.isDeploying p;
     App.isComplete := App.isComplete p;
     App.error := App.error p;
     App.finalUrl := App.finalUrl p;
     App.eventSource_open := true |}.
Proof.
  intros Hes. revert p. induction Hes as [|e es [He _] _ IH]; intros p Hopen.
  { simpl. rewrite app_nil_r. destruct p; simpl in *; by subst. }
  rewrite receive_cons, Hopen.
  unfold App.onmessage, event_isComplete. rewrite He.
  rewrite IH by done. simpl. by rewrite <- app_assoc.
Qed.

Lemma upto_terminal_plain (es : list ProgressEvent) (e : ProgressEvent)
    (rest : list ProgressEvent) :
  Forall plain es -> isComplete e = true ->
  upto_terminal (es ++ e :: rest) = es ++ [e].
Proof.
  intros Hes He. induction Hes as [|x es [Hx _] _ IH]; simpl.
  - by rewrite He.
  - by rewrite Hx, IH.
Qed.

Lemma published_publish (id : string) (es : list ProgressEvent) :
  Server.published id (Server.Publish id <$> es) = es.
Proof.
  unfold Server.published. induction es as [|e es IH]; simpl; [done|].
  rewrite decide_True by done. simpl. by f_equal.
Qed.

Lemma publish_no_rewires (id : string) (es : list ProgressEvent) :
  forallb (fun a => negb (rewires id a)) (Server.Publish id <$> es) = true.
Proof. by induction es. Qed.

(** What a subscriber is sent who connects after the first [k] events of a
    run have been published, when the event at the end of [pre] is the
    only terminal one so far. *)
Lemma late_subscriber (id : string) (conn : nat) (k : nat)
    (pre : list ProgressEvent) (e : ProgressEvent) (rest : list ProgressEvent) :
  id <> "" ->
  Forall plain pre -> isComplete e = true ->
  (k <= length pre)%nat ->
  Server.delivered id
    (Server.exec
       ((Server.Publish id <$> take k (pre ++ e :: rest))
          ++ Server.Connect id conn
          :: (Server.Publish id <$> drop k (pre ++ e :: rest)))
       Server.initial) =
  Server.greeting :: drop k pre ++ [e].
Proof.
  intros Hid Hpre He Hk. rewrite exec_app.
  destruct (unregistered_silent id
              (Server.Publish id <$> take k (pre ++ e :: rest))
              Server.initial) as [Hnone Hd];
    [done | apply rewires_connects, publish_no_rewires |].
  rewrite exec_cons.
  rewrite (registered_stream id conn);
    [| | apply publish_no_rewires].
  - rewrite step_delivered, Hd, published_publish. simpl.
    rewrite bool_decide_eq_true_2 by done.
    destruct id as [|ch id]; [done|]. simpl.
    rewrite drop_app_le by done.
    rewrite upto_terminal_plain; [done | by apply Forall_drop | done].
  - simpl. unfold Server.getStatus. destruct id as [|ch id]; [done|]. simpl.
    apply lookup_insert_eq.
Qed.

(** X18: the page shows the address of a successful deployment.  Take a run
    whose [try] block completes, and a page that opens its [EventSource] for
    the identifier of the run at any moment before the last event is
    published.  Then the page ends with the [EventSource] closed, no longer
    deploying, complete, without error, and showing the address
    [https://<derived name>.canyon-beta.com]. *)
Theorem page_shows_url (w : World) (formData : FormData) (id : string)
    (fs : gmap string string) (conn k : nat) :
  (try_block w formData id (Run.initial fs)).1 = Normal tt ->
  id <> "" ->
  let es := events (startDeployment w formData id (Run.initial fs)).2 in
  (k < length es)%nat ->
  let acts :=
    (Server.Publish id <$> take k es)
      ++ Server.Connect id conn :: (Server.Publish id <$> drop k es) in
  let page :=
    App.receive (Server.delivered id (Server.exec acts Server.initial))
      (App.tracking id) in
  exists s,
    orgName formData = VStr s /\
    App.shows_url page =
      Some ("https://" +:+ deriveAppName s (random_seed w) +:+ ".canyon-beta.com") /\
    App.shows_error page = None /\
    App.isDeploying page = false /\
    App.eventSource_open page = false.
Proof.
  intros Hok Hid es Hk acts page.
  destruct (run_shape w formData id fs) as (_ & He & _).
  destruct (try_block_events w formData id fs) as (Ht & _).
  rewrite Hok in He, Ht. destruct Ht as (s & pre & Hs & Hev & Hpre).
  rewrite Hev, app_nil_r in He.
  exists s. split; [done|].
  subst page acts es. rewrite He in Hk |- *.
  rewrite length_app in Hk. simpl in Hk.
  rewrite (late_subscriber id conn k pre _ []); [|done..|lia].
  change (Server.greeting :: drop k pre ++ [?e])
    with ((Server.greeting :: drop k pre) ++ [e]).
  rewrite receive_app, (receive_plain (Server.greeting :: drop k pre));
    [| constructor; [by split | by apply Forall_drop] | done].
  unfold App.receive, App.onmessage, App.shows_url, App.shows_error,
    App.appUrl, event_isComplete. simpl.
  by repeat split.
Qed.

Lemma page_shows_url_witness :
  App.shows_url
    (App.receive
       (Server.delivered "dep-1"
          (Server.exec
             ((Server.Publish "dep-1"
                 <$> take 4 (events (startDeployment Scenario.happy
                                       Scenario.acme "dep-1" (Run.initial ∅)).2))
                ++ Server.Connect "dep-1" 1
                :: (Server.Publish "dep-1"
                      <$> drop 4 (events (startDeployment Scenario.happy
                                            Scenario.acme "dep-1"
                                            (Run.initial ∅)).2)))
             Server.initial))
       (App.tracking "dep-1")) =
  Some "https://acme-inc--1000.canyon-beta.com".
Proof.
  destruct (page_shows_url Scenario.happy Scenario.acme "dep-1" ∅ 1 4 eq_refl
              ltac:(discriminate) ltac:(vm_compute; lia))
    as (s & Hs & Hurl & _).
  injection Hs as <-. exact Hurl.
Defined.

(** X19: the page shows the failure, and nothing of the cleanup.  Take a run
    whose [try] block fails, and a page that opens its [EventSource] at any
    moment before the event of the failure is published.  Then the page
    ends with the [EventSource] closed, complete, showing no address and the
    error [Deployment failed: ...]; the last line of its log is that of the
    failure, so none of the events of the cleanup reaches it. *)
Theorem page_shows_failure (w : World) (formData : FormData) (id : string)
    (fs : gmap string string) (conn k : nat) (msg : string) :
  (try_block w formData id (Run.initial fs)).1 = Throw msg ->
  id <> "" ->
  let es := events (startDeployment w formData id (Run.initial fs)).2 in
  (k <= length (events (try_block w formData id (Run.initial fs)).2))%nat ->
  let acts :=
    (Server.Publish id <$> take k es)
      ++ Server.Connect id conn :: (Server.Publish id <$> drop k es) in
  let page :=
    App.receive (Server.delivered id (Server.exec acts Server.initial))
      (App.tracking id) in
  App.shows_error page = Some ("Deployment failed: " +:+ msg) /\
  App.shows_url page = None /\
  last (App.messages page) = Some ("error", "Deployment failed: " +:+ msg) /\
  App.isDeploying page = false /\
  App.eventSource_open page = false.
Proof.
  intros Hthrow Hid es Hk acts page.
  destruct (run_shape w formData id fs) as (_ & He & _).
  destruct (try_block_events w formData id fs) as (Ht & _).
  rewrite Hthrow in He, Ht.
  subst page acts es. rewrite He.
  rewrite (late_subscriber id conn k _ _ _); [|done..].
  change (Server.greeting :: drop k ?pre ++ [?e])
    with ((Server.greeting :: drop k pre) ++ [e]).
  rewrite receive_app, (receive_plain (Server.greeting :: drop k _));
    [| constructor; [by split | by apply Forall_drop] | done].
  unfold App.receive, App.onmessage, App.shows_url, App.shows_error,
    App.appUrl, event_isComplete. simpl.
  repeat split.
  apply last_cons_snoc.
Qed.

Lemma page_shows_failure_witness :
  App.shows_url
    (App.receive
       (Server.delivered "dep-1"
          (Server.exec
             ((Server.Publish "dep-1"
                 <$> take 4 (events (startDeployment Scenario.create_fails
                                       Scenario.acme "dep-1" (Run.initial ∅)).2))
                ++ Server.Connect "dep-1" 1
                :: (Server.Publish "dep-1"
                      <$> drop 4 (events (startDeployment Scenario.create_fails
                                            Scenario.acme "dep-1"
                                            (Run.initial ∅)).2)))
             Server.initial))
       (App.tracking "dep-1")) = None.
Proof.
  exact (proj1 (proj2 (page_shows_failure Scenario.create_fails Scenario.acme
    "dep-1" ∅ 1 4
    (exit_errorMessage "flyctl apps create acme-inc--1000 --org personal"
       (Some 1) ("Error: Name has already been taken" +:+ nl))
    eq_refl ltac:(discriminate) ltac:(vm_compute; lia)))).
Defined.

(** * Properties of the subdomain proxy *)

Lemma prefix_split (pat s : string) :
  String.prefix pat s = true -> exists rest, s = pat +:+ rest.
Proof.
  revert s. induction pat as [|c pat IH]; intros s; simpl.
  - intros _. by exists s.
  - destruct s as [|d s]; simpl; [done|].
    destruct (Ascii.ascii_dec c d) as [->|Hne]; [|done].
    intros [rest ->]%IH. exists rest. by unfold_append.
Qed.

Lemma prefix_append (pat rest : string) : String.prefix pat (pat +:+ rest) = true.
Proof.
  induction pat as [|c pat IH]; unfold_append; simpl.
  - by destruct rest.
  - by destruct (Ascii.ascii_dec c c).
Qed.

Lemma endsWith_append (s suffix : string) :
  Proxy.endsWith (s +:+ suffix) suffix = true.
Proof.
  induction s as [|c s IH]; unfold_append.
  - destruct suffix as [|a suffix]; [done|].
    change (String.eqb (String a suffix) (String a suffix)
              || Proxy.endsWith suffix (String a suffix) = true).
    by rewrite String.eqb_refl.
  - simpl. by rewrite IH, orb_true_r.
Qed.

Lemma endsWith_split (s suffix : string) :
  Proxy.endsWith s suffix = true -> exists front, s = front +:+ suffix.
Proof.
  induction s as [|c s IH].
  - destruct suffix; [|done]. by exists "".
  - change (Proxy.endsWith (String c s) suffix)
      with (String.eqb (String c s) suffix || Proxy.endsWith s suffix).
    intros [<-%String.eqb_eq | [front ->]%IH]%orb_prop.
    + by exists "".
    + exists (String c front). by unfold_append.
Qed.

Lemma indexOf_eq (s pat : string) :
  Proxy.indexOf s pat =
    if String.prefix pat s then Some 0%nat
    else
      match s with
      | String _ s' => S <$> Proxy.indexOf s' pat
      | EmptyString => None
      end.
Proof. by destruct s. Qed.

(** [indexOf] finds the first place where the pattern starts. *)
Lemma indexOf_split (s pat : string) (n : nat) :
  Proxy.indexOf s pat = Some n ->
  exists rest,
    s = String.substring 0 n s +:+ pat +:+ rest /\
    String.length (String.substring 0 n s) = n.
Proof.
  revert n. induction s as [|c s IH]; intros n; rewrite indexOf_eq.
  - destruct (String.prefix pat "") eqn:Hp; [|done].
    intros [= <-]. apply prefix_split in Hp as [rest Hrest].
    exists rest. by rewrite append_nil_l.
  - destruct (String.prefix pat (String c s)) eqn:Hp.
    + intros [= <-]. apply prefix_split in Hp as [rest Hrest].
      exists rest. simpl. by rewrite append_nil_l.
    + destruct (Proxy.indexOf s pat) as [m|] eqn:Hm; [|done].
      simpl. intros [= <-]. destruct (IH m eq_refl) as (rest & Hs & Hlen).
      exists rest. simpl. rewrite append_cons, <- Hs, Hlen. done.
Qed.

Lemma indexOf_dotless (sub rest : string) (ch : ascii) (pat : string) :
  Js.all_units (fun c => negb (Ascii.eqb c ch)) sub = true ->
  Proxy.indexOf (sub +:+ String ch pat +:+ rest) (String ch pat) =
    Some (String.length sub).
Proof.
  induction sub as [|c sub IH]; unfold_append; simpl.
  - intros _. destruct (Ascii.ascii_dec ch ch); [|done].
    by rewrite prefix_append.
  - intros [Hc Hsub]%andb_prop.
    destruct (Ascii.ascii_dec ch c) as [->|Hne].
    { by rewrite Ascii.eqb_refl in Hc. }
    change (Proxy.indexOf (String c (sub +:+ String ch pat +:+ rest))
              (String ch pat))
      with (if String.prefix (String ch pat)
                 (String c (sub +:+ String ch pat +:+ rest))
            then Some 0%nat
            else S <$> Proxy.indexOf (sub +:+ String ch pat +:+ rest)
                         (String ch pat)).
    simpl. destruct (Ascii.ascii_dec ch c); [done|].
    by rewrite (IH Hsub).
Qed.

Lemma substring_0_append (a b : string) :
  String.substring 0 (String.length a) (a +:+ b) = a.
Proof.
  induction a as [|c a IH]; unfold_append; simpl.
  - by destruct b.
  - by rewrite IH.
Qed.

(** X20: a host made of a non-empty name without dots followed by
    [.canyon-alpha.com] is forwarded to the internal address of that name,
    [http://<name>.railway.internal:8080] followed by the path and query of
    the request. *)
Theorem proxy_forwards_name (sub pathAndQuery : string) :
  sub <> "" ->
  Proxy.dotless sub = true ->
  Proxy.route (Some (sub +:+ ".canyon-alpha.com")) pathAndQuery =
    Proxy.Forward ("http://" +:+ sub +:+ ".railway.internal:8080"
                     +:+ pathAndQuery).
Proof.
  intros Hsub Hdot. unfold Proxy.route, Proxy.before.
  assert (Js.nonempty (sub +:+ ".canyon-alpha.com") = true) as ->
    by (by destruct sub).
  change ("." +:+ Proxy.BASE_DOMAIN) with ".canyon-alpha.com".
  rewrite endsWith_append. simpl negb. cbv iota.
  pose proof (indexOf_dotless sub "" "." "canyon-alpha.com" Hdot) as Hidx.
  rewrite append_empty_r in Hidx. rewrite Hidx. simpl default.
  rewrite substring_0_append.
  assert (Js.nonempty sub = true) as -> by (by destruct sub).
  reflexivity.
Qed.

Lemma proxy_forwards_name_witness :
  Proxy.route (Some "acme-inc--1000.canyon-alpha.com") "/chat?x=1" =
  Proxy.Forward "http://acme-inc--1000.railway.internal:8080/chat?x=1".
Proof.
  exact (proxy_forwards_name "acme-inc--1000" "/chat?x=1"
           ltac:(discriminate) eq_refl).
Defined.

(** X21: the proxy forwards only what is under its base domain.  Whenever
    it forwards, the host ends with [.canyon-alpha.com], the name it
    forwards to is the non-empty part of the host before the first
    [.canyon-alpha.com], and the address is
    [http://<name>.railway.internal:8080] followed by the path and query;
    a missing host, the base domain itself and every other host are
    answered by the proxy itself. *)
Theorem proxy_forward_shape (host : option string) (pathAndQuery url : string) :
  Proxy.route host pathAndQuery = Proxy.Forward url ->
  exists h sub rest,
    host = Some h /\
    Proxy.endsWith h ".canyon-alpha.com" = true /\
    sub <> "" /\
    h = sub +:+ ".canyon-alpha.com" +:+ rest /\
    Proxy.indexOf h ".canyon-alpha.com" = Some (String.length sub) /\
    url = "http://" +:+ sub +:+ ".railway.internal:8080" +:+ pathAndQuery.
Proof.
  unfold Proxy.route, Proxy.before. destruct host as [h|]; [|done].
  destruct (Js.nonempty h); simpl; [|done].
  change ("." +:+ Proxy.BASE_DOMAIN) with ".canyon-alpha.com".
  destruct (Proxy.endsWith h ".canyon-alpha.com") eqn:Hends; simpl.
  - destruct (Proxy.indexOf h ".canyon-alpha.com") as [n|] eqn:Hidx; simpl.
    + destruct (indexOf_split _ _ _ Hidx) as (rest & Hh & Hlen).
      destruct (Js.nonempty (String.substring 0 n h)) eqn:Hne; simpl; [|done].
      intros [= <-]. exists h, (String.substring 0 n h), rest.
      repeat split; try done.
      * intros Hnil. by rewrite Hnil in Hne.
      * by rewrite Hlen.
    + by destruct h.
  - by destruct (String.eqb h Proxy.BASE_DOMAIN).
Qed.

Lemma proxy_forward_shape_witness :
  exists h sub rest,
    Some "a.b.canyon-alpha.com" = Some h /\
    Proxy.endsWith h ".canyon-alpha.com" = true /\
    sub <> "" /\
    h = sub +:+ ".canyon-alpha.com" +:+ rest /\
    Proxy.indexOf h ".canyon-alpha.com" = Some (String.length sub) /\
    "http://a.b.railway.internal:8080/" =
      "http://" +:+ sub +:+ ".railway.internal:8080" +:+ "/".
Proof.
  exact (proxy_forward_shape (Some "a.b.canyon-alpha.com") "/"
           "http://a.b.railway.internal:8080/" eq_refl).
Defined.
